(** * Tyre degradation window: stint segmentation, health curve, bounded
      per-driver histories and the plotted view.

    Shallow embedding of [src/gui/tyre_degradation_window.py].

    - Telemetry integers (frame index, compound code, tyre life, lap) are [Z].
    - The per-driver store [self.driver_data] is a [gmap string (list Entry.t)].
    - Python's true division produces a float; here the health percentage is
      an exact rational ([Qc]), i.e. binary64 rounding is idealised away.
    - The matplotlib axes that [update_plot] fills after [figure.clear()] are
      a record of the calls made on them; [canvas.draw()] and
      [tight_layout()] belong to the toolkit and leave no trace here. *)

From Stdlib Require Import ZArith QArith Qcanon Lia Permutation Sorted.
From stdpp Require Import base numbers option list sorting strings gmap fin_maps.

(* ===================================================================== *)
(** * Python builtins used by the window                                  *)
(* ===================================================================== *)

Module Py.

Section sorted.
Context {A K : Type} (key : A → K) (leb : K → K → bool).

(** Place [x] in front of the first element whose key is not smaller. *)
Fixpoint insert_stable (x : A) (l : list A) : list A :=
  match l with
  | [] => [x]
  | y :: l' => if leb (key x) (key y) then x :: y :: l'
               else y :: insert_stable x l'
  end.

(** [sorted(l, key=key)]: the stable ascending sort of [l]. *)
Definition sorted (l : list A) : list A := foldr insert_stable [] l.

(** Order of two elements by their keys. *)
Definition key_le (a b : A) : Prop := leb (key a) (key b) = true.
End sorted.

(** [max(l)] of a non-empty iterable, [None] when it is empty. *)
Definition max (l : list Z) : option Z :=
  match l with
  | [] => None
  | x :: l' => Some (foldl Z.max x l')
  end.

(** [l[-n:]]: the last [n] elements, the whole list when it is shorter. *)
Definition last_n {A} (n : nat) (l : list A) : list A :=
  drop (length l - n) l.

(** Truth value of a list: non-empty. *)
Definition truthy {A} (l : list A) : bool :=
  match l with [] => false | _ :: _ => true end.

(** [enumerate(l)]. *)
Definition enumerate {A} (l : list A) : list (nat * A) :=
  zip (seq 0 (length l)) l.

(** [zip(a, b, c)]. *)
Fixpoint zip3 {A B C} (a : list A) (b : list B) (c : list C)
  : list (A * B * C) :=
  match a, b, c with
  | x :: a', y :: b', z :: c' => (x, y, z) :: zip3 a' b' c'
  | _, _, _ => []
  end.

End Py.

(* ===================================================================== *)
(** * Data                                                                *)
(* ===================================================================== *)

(** The dict appended to a driver's list in [on_telemetry_data]. *)
Module Entry.
Record t := mk { frame : Z; tyre : Z; tyre_life : Z; lap : Z }.
End Entry.

(** The per-driver dict of an incoming frame; every field is read with
    [pos.get(key, 0)], so each may be missing. *)
Module Pos.
Record t := mk { tyre : option Z; tyre_life : option Z; lap : option Z }.
End Pos.

(** The message passed to [on_telemetry_data]: [data['frame']['drivers']]
    is a dict from driver code to [Pos.t], kept in its iteration order. *)
Module Data.
Record frame_t := mk_frame { drivers : option (list (string * Pos.t)) }.
Record t := mk { frame : option frame_t; frame_index : option Z }.
End Data.

(** The stint dict built inside [compute_degradation_series]. *)
Module Stint.
Record t := mk {
    compound : Z;
    start_life : Z;
    start_lap : Z;
    lives : list Z;
    laps : list Z
  }.

  (** [lives.append(life); laps.append(lap)]. *)
Definition append (life lap : Z) (st : t) : t :=
    {| compound := compound st;
       start_life := start_life st;
       start_lap := start_lap st;
       lives := lives st ++ [life];
       laps := laps st ++ [lap] |}.

  (** The (tyre life, lap) samples of the stint, as the curve loop reads
      them with [zip(stint['lives'], stint['laps'])]. *)
Definition samples (st : t) : list (Z * Z) := zip (lives st) (laps st).
End Stint.

(* ===================================================================== *)
(** * compute_degradation_series                                          *)
(* ===================================================================== *)

(** ** Building the stints *)

(** State of the first loop.  [current_stint] is a reference to a dict that
    also sits in the list [stints]; it is kept as the index of that dict,
    so that appending through [current_stint] updates the list. *)
Record loop_state := mk_loop {
  stints : list Stint.t;
  current_stint : option nat;
  previous_life : option Z
}.

Definition loop_init : loop_state :=
  {| stints := []; current_stint := None; previous_life := None |}.

(** The dict [current_stint] points to, if any. *)
Definition deref (s : loop_state) : option Stint.t :=
  c ← current_stint s; stints s !! c.

Definition is_new_stint (s : loop_state) (life compound : Z) : bool :=
  match deref s with
  | None => true
  | Some cur =>
      negb (Stint.compound cur =? compound)%Z
      || match previous_life s with
         | Some p => (life <? p)%Z
         | None => false
         end
  end.

Definition loop_body (s : loop_state) (x : Z * Z * Z) : loop_state :=
  let '(life, compound, lap) := x in
  if is_new_stint s life compound then
    {| stints := stints s ++ [Stint.mk compound life lap [life] [lap]];
       current_stint := Some (length (stints s));
       previous_life := Some life |}
  else
    {| stints := match current_stint s with
                 | Some c => alter (Stint.append life lap) c (stints s)
                 | None => stints s
                 end;
       current_stint := current_stint s;
       previous_life := Some life |}.

(** The state after the loop has read [xs]. *)
Definition loop_run (xs : list (Z * Z * Z)) : loop_state :=
  foldl loop_body loop_init xs.

Definition build_stints (xs : list (Z * Z * Z)) : list Stint.t :=
  stints (loop_run xs).

(** ** The health curve *)

Definition hundred : Qc := Qc_of_Z 100.

Definition health_pct (expected_life start_life start_lap lap : Z) : Qc :=
  let laps_in_stint := Z.max 0 (lap - start_lap) in
  let effective_life_progress := Z.max 0 ((start_life - 1) + laps_in_stint) in
  if (1 <? expected_life)%Z then
    (hundred
     - (Qc_of_Z effective_life_progress / Qc_of_Z (expected_life - 1))
       * hundred)%Qc
  else hundred.

(** [self.expected_tyre_life.get(compound, 25)]. *)
Definition expected_life_of (profile : gmap Z Z) (compound : Z) : Z :=
  default 25%Z (profile !! compound).

(** Inner loop: one point per (life, lap) pair of the stint. *)
Definition plot_stint (profile : gmap Z Z)
    (acc : list Z * list Qc) (stint : Stint.t) : list Z * list Qc :=
  let compound := Stint.compound stint in
  let expected_life := expected_life_of profile compound in
  let start_lap := Stint.start_lap stint in
  let start_life := Stint.start_life stint in
  foldl (λ '(plot_x, plot_y) '(life, lap),
           (plot_x ++ [lap],
            plot_y ++ [health_pct expected_life start_life start_lap lap]))
        acc (Stint.samples stint).

Definition compute_degradation_series (profile : gmap Z Z)
    (entries : list Entry.t) : list Z * list Qc :=
  match entries with
  | [] => ([], [])
  | _ :: _ =>
      let entries := Py.sorted Entry.frame Z.leb entries in
      let tyre_lives := Entry.tyre_life <$> entries in
      let compounds := Entry.tyre <$> entries in
      let laps := Entry.lap <$> entries in
      let stints := build_stints (Py.zip3 tyre_lives compounds laps) in
      foldl (plot_stint profile) ([], []) stints
  end.

(* ===================================================================== *)
(** * The plotted axes                                                    *)
(* ===================================================================== *)

Inductive color := TabBlue | Tab10 (i : nat).

Record line := mk_line {
  xdata : list Z;
  ydata : list Qc;
  linewidth : Qc;
  line_color : color;
  label : string;
  alpha : option Qc
}.

Record text := mk_text {
  text_x : Qc;
  text_y : Qc;
  text_s : string;
  fontsize : option Z
}.

Record legend_opts := mk_legend {
  loc : option string;
  legend_fontsize : option string;
  ncol : Z
}.

(** What has been called on the fresh [ax] of one [update_plot] pass. *)
Record axes := mk_axes {
  texts : list text;
  lines : list line;
  title : option string;
  xlabel : option string;
  ylabel : option string;
  xlim : option (Z * Z);
  ylim : option (Z * Z);
  grid : option Qc;
  legend : option legend_opts
}.

Definition half : Qc := Q2Qc (1 # 2).

Definition waiting_message : string :=
  "Waiting for telemetry data..."
  +:+ String (Ascii.ascii_of_nat 10)
        "Select a driver to view degradation analysis".

(** The axes of the early return taken when there is no telemetry. *)
Definition placeholder_axes : axes :=
  {| texts := [mk_text half half waiting_message (Some 14%Z)];
     lines := [];
     title := None; xlabel := None; ylabel := None;
     xlim := Some (0, 1)%Z; ylim := Some (0, 1)%Z;
     grid := None; legend := None |}.

(* ===================================================================== *)
(** * The window                                                          *)
(* ===================================================================== *)

Definition all_drivers : string := "All Drivers".

Record window := mk_window {
  current_driver : string;
  driver_data : gmap string (list Entry.t);
  degradation_rates : gmap Z Qc;
  expected_tyre_life : gmap Z Z;
  (** item texts of [self.driver_combo] *)
  driver_combo : list string;
  (** the axes of [self.figure] *)
  figure : axes
}.

Definition set_figure (ax : axes) (w : window) : window :=
  {| current_driver := current_driver w;
     driver_data := driver_data w;
     degradation_rates := degradation_rates w;
     expected_tyre_life := expected_tyre_life w;
     driver_combo := driver_combo w;
     figure := ax |}.

Definition set_current_driver (d : string) (w : window) : window :=
  {| current_driver := d;
     driver_data := driver_data w;
     degradation_rates := degradation_rates w;
     expected_tyre_life := expected_tyre_life w;
     driver_combo := driver_combo w;
     figure := figure w |}.

Definition set_driver_data (dd : gmap string (list Entry.t)) (w : window)
  : window :=
  {| current_driver := current_driver w;
     driver_data := dd;
     degradation_rates := degradation_rates w;
     expected_tyre_life := expected_tyre_life w;
     driver_combo := driver_combo w;
     figure := figure w |}.

Definition set_driver_combo (items : list string) (w : window) : window :=
  {| current_driver := current_driver w;
     driver_data := driver_data w;
     degradation_rates := degradation_rates w;
     expected_tyre_life := expected_tyre_life w;
     driver_combo := items;
     figure := figure w |}.

(** ** update_plot *)

(** [max((max(e['lap'] for e in entries) for entries in
    self.driver_data.values() if entries), default=0)]. *)
Definition max_lap (dd : gmap string (list Entry.t)) : Z :=
  default 0%Z
    (Py.max (omap (λ '(_, entries), Py.max (Entry.lap <$> entries))
                  (map_to_list dd))).

Definition title_for (driver : string) : string :=
  "Tyre Degradation Analysis - " +:+ driver.

Definition single_driver_axes (profile : gmap Z Z)
    (dd : gmap string (list Entry.t)) (driver : string) : axes :=
  let entries := default [] (dd !! driver) in
  let '(px, py) := compute_degradation_series profile entries in
  {| texts := [];
     lines := if Py.truthy px && Py.truthy py
              then [mk_line px py (Qc_of_Z 2) TabBlue driver None]
              else [];
     title := Some (title_for driver);
     xlabel := Some "Race Lap";
     ylabel := Some "Tyre Health (%)";
     xlim := Some (0, max_lap dd + 1)%Z;
     ylim := None;
     grid := Some (Q2Qc (3 # 10));
     legend := Some (mk_legend None None 1%Z) |}.

(** One pass of the loop over [enumerate(drivers_sorted)]: the lines drawn
    so far and the flag [plotted]. *)
Definition plot_driver (profile : gmap Z Z) (dd : gmap string (list Entry.t))
    (acc : list line * bool) (item : nat * string) : list line * bool :=
  let '(idx, driver) := item in
  let entries := default [] (dd !! driver) in
  let '(px, py) := compute_degradation_series profile entries in
  if Py.truthy px && Py.truthy py then
    (acc.1 ++ [mk_line px py (Q2Qc (3 # 2)) (Tab10 (idx mod 10)) driver
                       (Some (Q2Qc (9 # 10)))],
     true)
  else acc.

Definition all_drivers_axes (profile : gmap Z Z)
    (dd : gmap string (list Entry.t)) : axes :=
  let drivers_sorted := Py.sorted id String.leb (map_to_list dd).*1 in
  let '(drawn, plotted) :=
    foldl (plot_driver profile dd) ([], false) (Py.enumerate drivers_sorted) in
  {| texts := if plotted then []
              else [mk_text half half "No tyre data to plot yet" None];
     lines := drawn;
     title := Some (title_for all_drivers);
     xlabel := Some "Race Lap";
     ylabel := Some "Tyre Health (%)";
     xlim := Some (0, max_lap dd + 1)%Z;
     ylim := None;
     grid := Some (Q2Qc (3 # 10));
     legend := Some (mk_legend (Some "upper left") (Some "small") 2%Z) |}.

(** The axes drawn for a store, a selection and a compound profile. *)
Definition render (profile : gmap Z Z) (dd : gmap string (list Entry.t))
    (selection : string) : axes :=
  if decide (dd = ∅) then placeholder_axes
  else if negb (String.eqb selection "")
          && negb (String.eqb selection all_drivers)
  then single_driver_axes profile dd selection
  else all_drivers_axes profile dd.

Definition update_plot (w : window) : window :=
  set_figure (render (expected_tyre_life w) (driver_data w) (current_driver w))
             w.

(** ** Construction, selection and reset *)

Definition init_window : window :=
  update_plot
    {| current_driver := all_drivers;
       driver_data := ∅;
       degradation_rates :=
         list_to_map [(0, Q2Qc (179 # 10000)); (1, Q2Qc (15 # 1000));
                      (2, Q2Qc (179 # 10000)); (3, Q2Qc (2 # 100));
                      (4, Q2Qc (12 # 1000))]%Z;
       expected_tyre_life :=
         list_to_map [(0, 20); (1, 25); (2, 30); (3, 18); (4, 22)]%Z;
       driver_combo := [all_drivers];
       figure := placeholder_axes |}.

Definition on_driver_changed (driver : string) (w : window) : window :=
  if String.eqb driver "" then w
  else update_plot (set_current_driver driver w).

Definition refresh_data (w : window) : window :=
  update_plot (set_driver_data ∅ w).

(** ** on_telemetry_data *)

(** Body of the loop over [drivers.items()]. *)
Definition record (frame_index : Z) (dd : gmap string (list Entry.t))
    (item : string * Pos.t) : gmap string (list Entry.t) :=
  let '(code, pos) := item in
  let dd := match dd !! code with
            | None => <[code := []]> dd
            | Some _ => dd
            end in
  let tyre_data :=
    {| Entry.frame := frame_index;
       Entry.tyre := default 0%Z (Pos.tyre pos);
       Entry.tyre_life := default 0%Z (Pos.tyre_life pos);
       Entry.lap := default 0%Z (Pos.lap pos) |} in
  let dd := alter (λ h, h ++ [tyre_data]) code dd in
  match dd !! code with
  | Some h => if decide (1000 < length h)
              then <[code := Py.last_n 1000 h]> dd
              else dd
  | None => dd
  end.

Global Arguments record : simpl never.

(** The combo is rebuilt only when its items differ from the wanted ones;
    the selection falls back to "All Drivers" inside that branch. *)
Definition sync_combo (desired : list string) (w : window) : window :=
  if decide (driver_combo w = desired) then w
  else
    let w := set_driver_combo desired w in
    if decide (current_driver w ∈ desired) then w
    else set_current_driver all_drivers w.

Definition on_telemetry_data (data : Data.t) (w : window) : window :=
  match Data.frame data ≫= Data.drivers with
  | Some drivers =>
      let driver_codes := drivers.*1 in
      let desired := all_drivers :: driver_codes in
      let w := sync_combo desired w in
      let frame_index := default 0%Z (Data.frame_index data) in
      set_driver_data (foldl (record frame_index) (driver_data w) drivers) w
  | None => w
  end.

(** ** Reachable window states *)

Inductive event :=
| Telemetry (data : Data.t)
| DriverChanged (driver : string)
| Refresh
| TimerTick.

Definition handle (w : window) (ev : event) : window :=
  match ev with
  | Telemetry data => on_telemetry_data data w
  | DriverChanged driver => on_driver_changed driver w
  | Refresh => refresh_data w
  | TimerTick => update_plot w
  end.

Definition run (evs : list event) : window := foldl handle init_window evs.

(* ===================================================================== *)
(** * Vocabulary of the specification                                     *)
(* ===================================================================== *)

(** The (tyre_age, race_lap) part of a sample (life, compound, lap). *)
Definition sample_of (x : Z * Z * Z) : Z * Z := (x.1.1, x.2).

(** Number of samples held by the first [j] stints: where stint [j]
    begins in the history. *)
Definition offset (ss : list Stint.t) (j : nat) : nat :=
  length (concat (Stint.samples <$> take j ss)).

(** A stint as the loop keeps it: as many lives as laps, anchored at its
    first sample. *)
Definition stint_wf (st : Stint.t) : Prop :=
  length (Stint.lives st) = length (Stint.laps st)
  ∧ head (Stint.lives st) = Some (Stint.start_life st)
  ∧ head (Stint.laps st) = Some (Stint.start_lap st).

(** The history indices at which the stints of [ss] begin. *)
Definition stint_starts (ss : list Stint.t) : list nat :=
  offset ss <$> seq 0 (length ss).

(** Rules (a), (b), (c) of the segmenter for the sample at index [i]:
    first sample, compound different from the current stint's, or tyre
    age strictly below that of the sample just before. *)
Definition starts_new_stint (xs : list (Z * Z * Z)) (i : nat)
    (life compound : Z) : Prop :=
  i = 0
  ∨ (∃ cur, last (build_stints (take i xs)) = Some cur
            ∧ Stint.compound cur ≠ compound)
  ∨ (∃ prev, i ≠ 0 ∧ xs !! (i - 1) = Some prev ∧ (life < prev.1.1)%Z).

(** The samples (life, compound, lap) that the stint loop reads for the
    stored [entries]: the entries by ascending frame. *)
Definition history_of (entries : list Entry.t) : list (Z * Z * Z) :=
  (λ e, (Entry.tyre_life e, Entry.tyre e, Entry.lap e))
    <$> Py.sorted Entry.frame Z.leb entries.

(** The stints of the stored [entries]. *)
Definition stints_of (entries : list Entry.t) : list Stint.t :=
  build_stints (history_of entries).

(** The x and y values one stint contributes to the series. *)
Definition stint_laps (st : Stint.t) : list Z := snd <$> Stint.samples st.

Definition stint_health (profile : gmap Z Z) (st : Stint.t) : list Qc :=
  (λ p, health_pct (expected_life_of profile (Stint.compound st))
                   (Stint.start_life st) (Stint.start_lap st) p.2)
    <$> Stint.samples st.

(** The same rules read on the neighbouring samples alone: a stint holds
    one compound, so the current stint's compound is that of the sample
    just before. *)
Definition differs_from_previous (xs : list (Z * Z * Z)) (i : nat)
    (life compound : Z) : Prop :=
  i = 0
  ∨ (∃ prev, i ≠ 0 ∧ xs !! (i - 1) = Some prev
             ∧ (prev.1.2 ≠ compound ∨ (life < prev.1.1)%Z)).

(** The health formula as the specification words it. *)
Definition health_formula (expected_life start_age start_lap L : Z) : Qc :=
  let laps_in_stint := Z.max 0 (L - start_lap) in
  let effective_progress := Z.max 0 ((start_age - 1) + laps_in_stint) in
  (hundred
   - (Qc_of_Z effective_progress / Qc_of_Z (expected_life - 1)) * hundred)%Qc.

(** The store holds no telemetry for any driver. *)
Definition no_telemetry (dd : gmap string (list Entry.t)) : Prop :=
  ∀ code h, dd !! code = Some h → h = [].


(** Frames that carry one sample each for a single driver. *)
Definition frame_for (code : string) (e : Entry.t) : Data.t :=
  {| Data.frame :=
       Some (Data.mk_frame
               (Some [(code, Pos.mk (Some (Entry.tyre e))
                                    (Some (Entry.tyre_life e))
                                    (Some (Entry.lap e)))]));
     Data.frame_index := Some (Entry.frame e) |}.

(** The entry written for a driver of a frame. *)
Definition entry_of (frame_index : Z) (pos : Pos.t) : Entry.t :=
  {| Entry.frame := frame_index;
     Entry.tyre := default 0%Z (Pos.tyre pos);
     Entry.tyre_life := default 0%Z (Pos.tyre_life pos);
     Entry.lap := default 0%Z (Pos.lap pos) |}.

(** Feeding the samples of one driver, one frame per sample. *)
Definition feed (code : string) (samples : list Entry.t) (w : window)
  : window :=
  foldl (λ w e, on_telemetry_data (frame_for code e) w) w samples.

(** What every history of a reachable store satisfies. *)
Definition store_ok (dd : gmap string (list Entry.t)) : Prop :=
  ∀ code h, dd !! code = Some h → h ≠ [] ∧ length h ≤ 1000.


(** Window states reached when the selection only ever comes from the
    combo box, as the toolkit delivers it. *)
Inductive gui_reachable : window → Prop :=
| gui_init : gui_reachable init_window
| gui_telemetry w data :
    gui_reachable w → gui_reachable (on_telemetry_data data w)
| gui_select w driver :
    gui_reachable w → driver ∈ driver_combo w →
    gui_reachable (on_driver_changed driver w)
| gui_refresh w : gui_reachable w → gui_reachable (refresh_data w)
| gui_tick w : gui_reachable w → gui_reachable (update_plot w).

(* ===================================================================== *)
(** * Vocabulary of the further properties                                *)
(* ===================================================================== *)

(** No neighbouring samples break the stint: they share the compound and
    the life does not decrease. *)
Definition unbroken (xs : list (Z * Z * Z)) : Prop :=
  ∀ i prev x, xs !! i = Some prev → xs !! S i = Some x →
              prev.1.2 = x.1.2 ∧ (prev.1.1 ≤ x.1.1)%Z.

(** The compound of a stint, once per sample it holds. *)
Definition stint_compounds (st : Stint.t) : list Z :=
  replicate (length (Stint.lives st)) (Stint.compound st).

(** The effective progress charged to a sample of a stint. *)
Definition progress (start_life start_lap lap : Z) : Z :=
  Z.max 0 ((start_life - 1) + Z.max 0 (lap - start_lap)).


(** The (life, compound, lap) of a stored entry. *)
Definition triple_of (e : Entry.t) : Z * Z * Z :=
  (Entry.tyre_life e, Entry.tyre e, Entry.lap e).

(** Entries in non-decreasing frame order. *)
Definition frame_ordered (h : list Entry.t) : Prop :=
  Sorted (λ a b, (Entry.frame a ≤ Entry.frame b)%Z) h.

(** Every history is in frame order and holds no frame beyond [fi]. *)
Definition store_frame_ordered (fi : Z) (dd : gmap string (list Entry.t))
  : Prop :=
  ∀ code h, dd !! code = Some h →
            frame_ordered h ∧ Forall (λ e, (Entry.frame e ≤ fi)%Z) h.


(** The line the all-drivers loop draws for the driver at position [idx]
    of the sorted codes, if it draws one. *)
Definition driver_line (profile : gmap Z Z) (dd : gmap string (list Entry.t))
    (idx : nat) (driver : string) : option line :=
  let '(px, py) :=
    compute_degradation_series profile (default [] (dd !! driver)) in
  if Py.truthy px && Py.truthy py then
    Some (mk_line px py (Q2Qc (3 # 2)) (Tab10 (idx mod 10)) driver
                  (Some (Q2Qc (9 # 10))))
  else None.

(** The driver codes of the store in the order the all-drivers loop
    visits them. *)
Definition drivers_sorted (dd : gmap string (list Entry.t)) : list string :=
  Py.sorted id String.leb (map_to_list dd).*1.

(* ===================================================================== *)
(** * Properties of the builtins                                          *)
(* ===================================================================== *)

Section sorted_facts.
Context {A K : Type} (key : A → K) (leb : K → K → bool).

Lemma insert_stable_perm x l : Py.insert_stable key leb x l ≡ₚ x :: l.
Proof.
  induction l as [|y l IH]; simpl; [done|].
  destruct (leb (key x) (key y)); [done|].
  rewrite IH. apply Permutation_swap.
Qed.

Lemma sorted_perm l : Py.sorted key leb l ≡ₚ l.
Proof.
  induction l as [|x l IH]; simpl; [done|].
  rewrite insert_stable_perm. by rewrite IH.
Qed.

Lemma sorted_length l : length (Py.sorted key leb l) = length l.
Proof. by rewrite sorted_perm. Qed.

Hypothesis leb_total : ∀ a b, leb a b = true ∨ leb b a = true.

Lemma insert_stable_sorted x l :
  Sorted (Py.key_le key leb) l → Sorted (Py.key_le key leb) (Py.insert_stable key leb x l).
Proof.
  induction 1 as [|y l Hs IH Hd]; simpl.
  - repeat constructor.
  - destruct (leb (key x) (key y)) eqn:E.
    + repeat constructor; done.
    + constructor; [done|].
      destruct (leb_total (key x) (key y)) as [?|Hyx]; [congruence|].
      destruct Hd as [|z l Hyz]; simpl.
      * by constructor.
      * destruct (leb (key x) (key z)); by constructor.
Qed.

Lemma sorted_sorted l : Sorted (Py.key_le key leb) (Py.sorted key leb l).
Proof.
  induction l as [|x l IH]; simpl; [constructor|].
  by apply insert_stable_sorted.
Qed.

(** A list that is already in order is returned unchanged. *)
Lemma sorted_id l : Sorted (Py.key_le key leb) l → Py.sorted key leb l = l.
Proof.
  induction 1 as [|x l Hs IH Hd]; simpl; [done|].
  rewrite IH. destruct Hd as [|y l Hxy]; simpl; [done|].
  unfold Py.key_le in Hxy. by rewrite Hxy.
Qed.

(** Stability: elements that tie with [x] on the key keep their order,
    for every way [same] of picking out one key class. *)
Lemma insert_stable_filter (same : A → bool) x l :
  (∀ a b, same a = true → same b = true →
          leb (key a) (key b) = true) →
  same x = true →
  Sorted (Py.key_le key leb) l →
  filter (λ a, same a = true) (Py.insert_stable key leb x l)
  = x :: filter (λ a, same a = true) l.
Proof.
  intros Htie Hx. induction 1 as [|y l Hs IH Hd]; simpl.
  - rewrite filter_cons. by rewrite decide_True.
  - destruct (leb (key x) (key y)) eqn:E.
    + rewrite (filter_cons _ x). by rewrite decide_True.
    + rewrite filter_cons. destruct (decide (same y = true)) as [Hy|Hy].
      * rewrite (Htie x y) in E; done.
      * rewrite IH. rewrite (filter_cons _ y). by rewrite decide_False.
Qed.

Lemma insert_stable_filter_other (same : A → bool) x l :
  same x = false →
  filter (λ a, same a = true) (Py.insert_stable key leb x l)
  = filter (λ a, same a = true) l.
Proof.
  intros Hx. induction l as [|y l IH]; simpl.
  - rewrite filter_cons. rewrite decide_False; [done|congruence].
  - destruct (leb (key x) (key y)).
    + rewrite (filter_cons _ x). rewrite decide_False; [done|congruence].
    + rewrite !(filter_cons _ y). by rewrite IH.
Qed.

Lemma sorted_stable (same : A → bool) l :
  (∀ a b, same a = true → same b = true →
          leb (key a) (key b) = true) →
  filter (λ a, same a = true) (Py.sorted key leb l)
  = filter (λ a, same a = true) l.
Proof.
  intros Htie. induction l as [|x l IH]; simpl; [done|].
  destruct (same x) eqn:Hx.
  - rewrite insert_stable_filter; [|done|done|apply sorted_sorted].
    rewrite filter_cons. rewrite decide_True; [|done]. by rewrite IH.
  - rewrite insert_stable_filter_other; [|done].
    rewrite filter_cons. rewrite decide_False; [done|congruence].
Qed.
End sorted_facts.

(* ===================================================================== *)
(** * The stint loop                                                      *)
(* ===================================================================== *)

Lemma loop_run_snoc xs x : loop_run (xs ++ [x]) = loop_body (loop_run xs) x.
Proof. unfold loop_run. by rewrite foldl_app. Qed.

Lemma deref_last ss cur p :
  deref (mk_loop (ss ++ [cur]) (Some (length ss)) p) = Some cur.
Proof. unfold deref; simpl. by rewrite list_lookup_middle. Qed.

(** One pass of the loop when a current stint exists. *)
Lemma loop_body_current ss cur p life compound lap :
  loop_body (mk_loop (ss ++ [cur]) (Some (length ss)) (Some p))
            (life, compound, lap)
  = if negb (Stint.compound cur =? compound)%Z || (life <? p)%Z
    then mk_loop ((ss ++ [cur]) ++ [Stint.mk compound life lap [life] [lap]])
                 (Some (length (ss ++ [cur]))) (Some life)
    else mk_loop (ss ++ [Stint.append life lap cur])
                 (Some (length ss)) (Some life).
Proof.
  unfold loop_body, is_new_stint. rewrite deref_last. simpl.
  destruct (negb _ || _); [done|].
  f_equal. rewrite <-(Nat.add_0_r (length ss)). by rewrite alter_app_r.
Qed.

(** After at least one sample the current stint is the last of the list
    and [previous_life] is the life of the last sample. *)
Lemma loop_run_shape xs x :
  ∃ ss cur, loop_run (xs ++ [x])
            = mk_loop (ss ++ [cur]) (Some (length ss)) (Some x.1.1).
Proof.
  revert x. induction xs as [|y xs IH] using rev_ind; intros [[life c] lap].
  - exists [], (Stint.mk c life lap [life] [lap]). done.
  - rewrite loop_run_snoc. destruct (IH y) as (ss & cur & ->).
    rewrite loop_body_current. destruct (negb _ || _); eauto.
Qed.

Lemma build_stints_snoc_shape xs x :
  ∃ ss cur, build_stints (xs ++ [x]) = ss ++ [cur].
Proof.
  destruct (loop_run_shape xs x) as (ss & cur & H).
  exists ss, cur. unfold build_stints. by rewrite H.
Qed.

Lemma samples_append life lap st :
  stint_wf st →
  Stint.samples (Stint.append life lap st) = Stint.samples st ++ [(life, lap)].
Proof.
  intros (Hlen & _). unfold Stint.samples; simpl. by rewrite zip_with_app.
Qed.

Lemma stint_wf_append life lap st : stint_wf st → stint_wf (Stint.append life lap st).
Proof.
  intros (Hlen & Hl & Hp). unfold stint_wf; simpl.
  rewrite !length_app, Hlen. split; [done|].
  destruct (Stint.lives st), (Stint.laps st); naive_solver.
Qed.

Lemma stint_wf_new compound life lap :
  stint_wf (Stint.mk compound life lap [life] [lap]).
Proof. done. Qed.

(** The loop keeps every stint well formed and the stints' samples,
    chained in order, are the samples read so far. *)
Lemma loop_run_spec xs :
  Forall stint_wf (stints (loop_run xs))
  ∧ concat (Stint.samples <$> stints (loop_run xs)) = sample_of <$> xs.
Proof.
  induction xs as [|x xs [IHwf IHcat]] using rev_ind; [by split|].
  rewrite loop_run_snoc. destruct xs as [|y xs _] using rev_ind.
  - destruct x as [[life c] lap]. split; [|done].
    repeat constructor.
  - destruct (loop_run_shape xs y) as (ss & cur & Hs).
    rewrite Hs in IHwf, IHcat |- *. simpl in IHwf, IHcat.
    destruct x as [[life c] lap]. rewrite loop_body_current.
    apply Forall_app in IHwf as [Hss Hcur]. rewrite Forall_singleton in Hcur.
    destruct (negb _ || _); simpl.
    + split.
      * rewrite !Forall_app, !Forall_singleton.
        split_and!; [done|done|apply stint_wf_new].
      * rewrite fmap_app, concat_app, IHcat. by rewrite !fmap_app.
    + split.
      * apply Forall_app; split; [done|].
        apply Forall_singleton. by apply stint_wf_append.
      * rewrite fmap_app, concat_app in IHcat |- *. simpl in *.
        rewrite samples_append by done. rewrite (fmap_app _ (xs ++ [y])).
        rewrite <-IHcat. rewrite !app_nil_r. by rewrite app_assoc.
Qed.

Lemma stint_wf_samples st : stint_wf st → Stint.samples st ≠ [].
Proof.
  intros (Hlen & Hl & Hp). unfold Stint.samples.
  destruct (Stint.lives st), (Stint.laps st); naive_solver.
Qed.

(** ** Positions in a chain of lists *)

Section concat_positions.
Context {A : Type}.
Implicit Types (L : list (list A)) (l : list A).

Lemma concat_take_S L j l :
  L !! j = Some l →
  length (concat (take (S j) L)) = length (concat (take j L)) + length l.
Proof.
  intros H. rewrite (take_S_r _ _ _ H), concat_app, length_app. simpl.
  by rewrite app_nil_r.
Qed.

Lemma concat_take_mono L j j' :
  j ≤ j' → length (concat (take j L)) ≤ length (concat (take j' L)).
Proof.
  intros Hle. replace j' with (j + (j' - j)) by lia.
  rewrite <-take_take_drop, concat_app, length_app. lia.
Qed.

(** Every position of the chain lies in one of the lists. *)
Lemma concat_lookup_inv L i x :
  concat L !! i = Some x →
  ∃ j k l, L !! j = Some l ∧ l !! k = Some x
           ∧ length (concat (take j L)) + k = i.
Proof.
  revert i. induction L as [|l L IH]; intros i; simpl; [done|].
  destruct (decide (i < length l)) as [Hlt|Hge].
  - rewrite lookup_app_l by done. intros H. by exists 0, i, l.
  - rewrite lookup_app_r by lia. intros H.
    destruct (IH _ H) as (j & k & l' & Hj & Hk & Hpos).
    exists (S j), k, l'. simpl. rewrite length_app. split_and!; [done|done|lia].
Qed.

(** ... and in one only. *)
Lemma concat_position_inj L j k l j' k' l' :
  L !! j = Some l → k < length l →
  L !! j' = Some l' → k' < length l' →
  length (concat (take j L)) + k = length (concat (take j' L)) + k' →
  j = j' ∧ k = k'.
Proof.
  intros Hj Hk Hj' Hk' Heq.
  pose proof (concat_take_S _ _ _ Hj) as HS.
  pose proof (concat_take_S _ _ _ Hj') as HS'.
  destruct (Nat.lt_trichotomy j j') as [Hlt|[->|Hgt]].
  - pose proof (concat_take_mono L (S j) j' ltac:(lia)). lia.
  - split; [done|lia].
  - pose proof (concat_take_mono L (S j') j ltac:(lia)). lia.
Qed.

End concat_positions.

(** C1. Segmentation partitions the history exactly: the stints' sample
    sequences, chained in output order, are the history; no stint is
    empty; and every sample of the history sits at one position [(j, k)]
    (sample [k] of stint [j]) and at no other. *)
Theorem segment_partitions_history (xs : list (Z * Z * Z)) :
  let ss := build_stints xs in
  concat (Stint.samples <$> ss) = sample_of <$> xs
  ∧ Forall (λ st, Stint.samples st ≠ []) ss
  ∧ ∀ i x, xs !! i = Some x →
      ∃ j k st,
        ss !! j = Some st
        ∧ Stint.samples st !! k = Some (sample_of x)
        ∧ offset ss j + k = i
        ∧ ∀ j' k' st',
            ss !! j' = Some st' → k' < length (Stint.samples st') →
            offset ss j' + k' = i → j' = j ∧ k' = k.
Proof.
  intros ss. destruct (loop_run_spec xs) as [Hwf Hcat].
  fold (build_stints xs) in Hwf, Hcat. fold ss in Hwf, Hcat.
  split; [done|]. split.
  { eapply Forall_impl; [exact Hwf|]. apply stint_wf_samples. }
  intros i x Hx.
  assert (concat (Stint.samples <$> ss) !! i = Some (sample_of x)) as Hi.
  { rewrite Hcat, list_lookup_fmap, Hx. done. }
  apply concat_lookup_inv in Hi as (j & k & l & Hj & Hk & Hpos).
  rewrite list_lookup_fmap in Hj.
  destruct (ss !! j) as [st|] eqn:Hst; [|done]. simplify_eq/=.
  exists j, k, st. unfold offset. rewrite fmap_take.
  split_and!; [done..|].
  intros j' k' st' Hj' Hk' Heq.
  eapply (concat_position_inj (Stint.samples <$> ss) j' k' _ j k).
  - rewrite list_lookup_fmap, Hj'. done.
  - done.
  - rewrite list_lookup_fmap, Hst. done.
  - by eapply lookup_lt_Some.
  - rewrite fmap_take in Heq. done.
Qed.

Lemma segment_partitions_history_witness :
  let xs := [(1, 0, 1); (2, 0, 2); (1, 0, 3); (2, 1, 4)]%Z in
  ∃ j k st,
    build_stints xs !! j = Some st
    ∧ Stint.samples st !! k = Some (1, 3)%Z
    ∧ offset (build_stints xs) j + k = 2.
Proof.
  intros xs.
  destruct (segment_partitions_history xs) as (_ & _ & H).
  destruct (H 2 (1, 0, 3)%Z eq_refl) as (j & k & st & ? & ? & ? & _).
  by exists j, k, st.
Defined.

(** ** When a stint begins *)

Lemma loop_body_stints s life compound lap :
  stints (loop_body s (life, compound, lap))
  = if is_new_stint s life compound
    then stints s ++ [Stint.mk compound life lap [life] [lap]]
    else match current_stint s with
         | Some c => alter (Stint.append life lap) c (stints s)
         | None => stints s
         end.
Proof. unfold loop_body. by destruct (is_new_stint _ _ _). Qed.

(** The test of the loop, read on the samples already seen. *)
Lemma is_new_stint_iff xs i life compound lap :
  xs !! i = Some (life, compound, lap) →
  is_new_stint (loop_run (take i xs)) life compound = true
  ↔ starts_new_stint xs i life compound.
Proof.
  intros Hx. unfold starts_new_stint. destruct i as [|i].
  - rewrite take_0. simpl. naive_solver.
  - destruct (lookup_lt_is_Some_2 xs i) as [prev Hprev].
    { apply lookup_lt_Some in Hx. lia. }
    rewrite (take_S_r _ _ _ Hprev). unfold build_stints.
    destruct (loop_run_shape (take i xs) prev) as (ss & cur & ->).
    unfold is_new_stint. rewrite deref_last. simpl.
    rewrite last_snoc, Nat.sub_0_r, Hprev.
    rewrite orb_true_iff, negb_true_iff, Z.eqb_neq, Z.ltb_lt.
    split.
    + intros [?|?]; [right; left|right; right]; eauto.
    + intros [?|[(? & ? & ?)|(? & _ & ? & ?)]]; simplify_eq; auto.
Qed.

Lemma offset_app_le ss ss' j :
  j ≤ length ss → offset (ss ++ ss') j = offset ss j.
Proof. intros H. unfold offset. by rewrite take_app_le. Qed.

Lemma stint_starts_snoc ss st :
  stint_starts (ss ++ [st])
  = stint_starts ss ++ [length (concat (Stint.samples <$> ss))].
Proof.
  unfold stint_starts. rewrite length_app. simpl.
  rewrite Nat.add_1_r, seq_S, fmap_app. simpl. f_equal.
  - apply list_fmap_ext. intros k j Hj.
    apply lookup_seq in Hj as [-> ?]. apply offset_app_le. lia.
  - rewrite offset_app_le by done. unfold offset. by rewrite firstn_all.
Qed.

Lemma stint_starts_last ss st st' :
  stint_starts (ss ++ [st]) = stint_starts (ss ++ [st']).
Proof. by rewrite !stint_starts_snoc. Qed.

(** Reading one more sample adds a start at its index, or none. *)
Lemma stint_starts_step xs life compound lap :
  stint_starts (build_stints (xs ++ [(life, compound, lap)]))
  = stint_starts (build_stints xs)
    ++ (if is_new_stint (loop_run xs) life compound then [length xs] else []).
Proof.
  unfold build_stints. rewrite loop_run_snoc, loop_body_stints.
  destruct (is_new_stint _ _ _) eqn:Hnew.
  - rewrite stint_starts_snoc. do 2 f_equal.
    destruct (loop_run_spec xs) as [_ ->]. by rewrite length_fmap.
  - rewrite app_nil_r. destruct xs as [|y xs _] using rev_ind; [done|].
    destruct (loop_run_shape xs y) as (ss & cur & ->). simpl.
    rewrite <-(Nat.add_0_r (length ss)), alter_app_r. simpl.
    apply stint_starts_last.
Qed.

Lemma stint_starts_spec xs i :
  i ∈ stint_starts (build_stints xs)
  ↔ ∃ life compound lap,
      xs !! i = Some (life, compound, lap)
      ∧ is_new_stint (loop_run (take i xs)) life compound = true.
Proof.
  induction xs as [|[[life c] lap] xs IH] using rev_ind.
  - split; [by intros ?%elem_of_nil|]. by intros (? & ? & ? & ? & _).
  - rewrite stint_starts_step, elem_of_app, IH. split.
    + intros [(l & c' & p & Hx & Hn)|Hi].
      * exists l, c', p. pose proof (lookup_lt_Some _ _ _ Hx).
        rewrite lookup_app_l, take_app_le by lia. done.
      * destruct (is_new_stint _ _ _) eqn:Hn; [|by apply elem_of_nil in Hi].
        apply list_elem_of_singleton in Hi as ->.
        exists life, c, lap. rewrite list_lookup_middle by done.
        by rewrite take_app_length.
    + intros (l & c' & p & Hx & Hn).
      destruct (decide (i < length xs)) as [Hlt|Hge].
      * left. exists l, c', p.
        rewrite lookup_app_l, take_app_le in * by lia. done.
      * right. pose proof (lookup_lt_Some _ _ _ Hx) as Hlen.
        rewrite length_app in Hlen. simpl in Hlen.
        assert (i = length xs) as -> by lia.
        rewrite list_lookup_middle in Hx by done. simplify_eq.
        rewrite take_app_length in Hn. rewrite Hn. by apply list_elem_of_singleton.
Qed.

(** The current stint has the compound of the sample read last. *)
Lemma current_stint_compound xs x cur :
  last (build_stints (xs ++ [x])) = Some cur → Stint.compound cur = x.1.2.
Proof.
  unfold build_stints. rewrite loop_run_snoc.
  destruct x as [[life c] lap].
  destruct xs as [|y xs _] using rev_ind.
  - simpl. by intros [= <-].
  - destruct (loop_run_shape xs y) as (ss & cur0 & ->).
    rewrite loop_body_current.
    destruct (negb (Stint.compound cur0 =? c)%Z || (life <? y.1.1)%Z) eqn:E;
      simpl; rewrite last_snoc; intros [= <-]; [done|].
    apply orb_false_iff in E as [E _].
    apply negb_false_iff in E. simpl. by apply Z.eqb_eq.
Qed.

Lemma starts_new_stint_flat xs i life compound :
  i < length xs →
  starts_new_stint xs i life compound
  ↔ differs_from_previous xs i life compound.
Proof.
  intros Hi. unfold starts_new_stint, differs_from_previous.
  destruct i as [|i]; [split; intros _; by left|].
  simpl. rewrite Nat.sub_0_r.
  destruct (lookup_lt_is_Some_2 xs i) as [prev Hprev]; [lia|].
  rewrite (take_S_r _ _ _ Hprev), Hprev.
  destruct (build_stints_snoc_shape (take i xs) prev) as (ss & cur & Hb).
  pose proof (current_stint_compound (take i xs) prev cur) as Hc.
  rewrite Hb, last_snoc in Hc |- *. specialize (Hc eq_refl).
  split.
  - intros [?|[(c & [= <-] & ?)|(p & ? & [= <-] & ?)]]; [done|..];
      right; exists prev; split_and!; auto; left; congruence.
  - intros [?|(p & ? & [= <-] & [?|?])]; [done|..].
    + right; left. exists cur. split; [done|congruence].
    + right; right. by exists prev.
Qed.

(** C2. Reading the history in order, the sample at index [i] opens a
    new stint exactly when it is the first sample, or its compound is not
    that of the current stint, or its tyre age is below that of the sample
    before it (a compound change alone suffices, whatever the age does);
    otherwise it is appended to the current stint.  In the final list of
    stints the starts are exactly those indices, and the rules can be read
    on the sample just before, whose compound is the current stint's. *)
Theorem new_stint_rule (xs : list (Z * Z * Z)) i life compound lap :
  xs !! i = Some (life, compound, lap) →
  (starts_new_stint xs i life compound →
     build_stints (take (S i) xs)
     = build_stints (take i xs) ++ [Stint.mk compound life lap [life] [lap]])
  ∧ (¬ starts_new_stint xs i life compound →
     ∃ ss cur, build_stints (take i xs) = ss ++ [cur]
               ∧ build_stints (take (S i) xs)
                 = ss ++ [Stint.append life lap cur])
  ∧ (i ∈ stint_starts (build_stints xs) ↔ starts_new_stint xs i life compound)
  ∧ (starts_new_stint xs i life compound
     ↔ differs_from_previous xs i life compound).
Proof.
  intros Hx. pose proof (is_new_stint_iff _ _ _ _ _ Hx) as Hiff.
  assert (build_stints (take (S i) xs)
          = stints (loop_body (loop_run (take i xs)) (life, compound, lap)))
    as ->.
  { rewrite (take_S_r _ _ _ Hx). unfold build_stints. by rewrite loop_run_snoc. }
  rewrite loop_body_stints. split_and!.
  - intros Hs. apply Hiff in Hs. by rewrite Hs.
  - intros Hs. destruct (is_new_stint _ _ _) eqn:Hn; [by destruct Hs; apply Hiff|].
    destruct i as [|i]; [by rewrite take_0 in Hn|].
    destruct (lookup_lt_is_Some_2 xs i) as [prev Hprev].
    { apply lookup_lt_Some in Hx. lia. }
    rewrite (take_S_r _ _ _ Hprev). unfold build_stints.
    destruct (loop_run_shape (take i xs) prev) as (ss & cur & ->). simpl.
    exists ss, cur. split; [done|].
    rewrite <-(Nat.add_0_r (length ss)). by rewrite alter_app_r.
  - rewrite <-Hiff, stint_starts_spec. split.
    + intros (l & c & p & Hx' & Hn). by simplify_eq.
    + intros Hn. eauto.
  - apply starts_new_stint_flat. by eapply lookup_lt_Some.
Qed.

Lemma new_stint_rule_witness :
  let xs := [(1, 0, 1); (2, 0, 2); (1, 0, 3); (2, 1, 4)]%Z in
  build_stints (take 3 xs)
  = build_stints (take 2 xs) ++ [Stint.mk 0 1 3 [1] [3]]%Z.
Proof.
  intros xs.
  apply (new_stint_rule xs 2 1%Z 0%Z 3%Z eq_refl).
  right; right. exists (2, 0, 2)%Z. split_and!; [lia|reflexivity|simpl; lia].
Defined.

(* ===================================================================== *)
(** * The series                                                          *)
(* ===================================================================== *)

Lemma zip3_fmap {A B C D} (f : A → B) (g : A → C) (h : A → D) (l : list A) :
  Py.zip3 (f <$> l) (g <$> l) (h <$> l) = (λ a, (f a, g a, h a)) <$> l.
Proof.
  induction l as [|a l IH]; [done|].
  rewrite !fmap_cons. cbn [Py.zip3]. by rewrite IH.
Qed.

Lemma plot_stint_spec profile acc st :
  plot_stint profile acc st
  = (acc.1 ++ stint_laps st, acc.2 ++ stint_health profile st).
Proof.
  unfold plot_stint, stint_laps, stint_health.
  generalize (Stint.samples st) as l. intros l. revert acc.
  induction l as [|[life lap] l IH]; intros [px py]; simpl.
  - by rewrite !app_nil_r.
  - rewrite IH. simpl. by rewrite <-!app_assoc.
Qed.

Lemma plot_stints_spec profile acc ss :
  foldl (plot_stint profile) acc ss
  = (acc.1 ++ concat (stint_laps <$> ss),
     acc.2 ++ concat (stint_health profile <$> ss)).
Proof.
  revert acc. induction ss as [|st ss IH]; intros [px py]; simpl.
  - by rewrite !app_nil_r.
  - rewrite IH, plot_stint_spec. simpl. by rewrite <-!app_assoc.
Qed.

(** The series is the chain of the stints' points. *)
Lemma compute_degradation_series_spec profile entries :
  compute_degradation_series profile entries
  = (concat (stint_laps <$> stints_of entries),
     concat (stint_health profile <$> stints_of entries)).
Proof.
  unfold stints_of, history_of. destruct entries as [|e entries]; [done|].
  unfold compute_degradation_series. cbv beta iota zeta.
  rewrite zip3_fmap. by rewrite plot_stints_spec.
Qed.

Lemma stint_laps_concat (ss : list Stint.t) :
  concat (stint_laps <$> ss) = snd <$> concat (Stint.samples <$> ss).
Proof.
  induction ss as [|st ss IH]; [done|].
  rewrite !fmap_cons. cbn [concat]. by rewrite fmap_app, IH.
Qed.

Lemma series_laps entries :
  concat (stint_laps <$> stints_of entries)
  = Entry.lap <$> Py.sorted Entry.frame Z.leb entries.
Proof.
  rewrite stint_laps_concat. unfold stints_of, build_stints.
  destruct (loop_run_spec (history_of entries)) as [_ ->].
  unfold history_of. rewrite <-!list_fmap_compose. done.
Qed.

Lemma stint_health_length profile st :
  length (stint_health profile st) = length (stint_laps st).
Proof. unfold stint_health, stint_laps. by rewrite !length_fmap. Qed.

Lemma series_lengths profile (ss : list Stint.t) :
  length (concat (stint_health profile <$> ss))
  = length (concat (stint_laps <$> ss)).
Proof.
  induction ss as [|st ss IH]; [done|].
  rewrite !fmap_cons. cbn [concat].
  by rewrite !length_app, IH, stint_health_length.
Qed.

Lemma Sorted_weaken {A} (R R' : A → A → Prop) l :
  (∀ a b, R a b → R' a b) → Sorted R l → Sorted R' l.
Proof.
  intros HR. induction 1 as [|x l Hs IH Hd]; constructor; [done|].
  destruct Hd; constructor; auto.
Qed.

Lemma frame_leb_total (a b : Z) : (a <=? b)%Z = true ∨ (b <=? a)%Z = true.
Proof. rewrite !Z.leb_le. lia. Qed.

(** C10. The series has one (lap, health) point per stored entry, and
    its x values are the entries' laps taken by ascending frame index
    (entries of equal frame in their stored order). *)
Theorem series_one_point_per_entry (profile : gmap Z Z)
    (entries : list Entry.t) :
  let ordered := Py.sorted Entry.frame Z.leb entries in
  length (compute_degradation_series profile entries).1 = length entries
  ∧ length (compute_degradation_series profile entries).2 = length entries
  ∧ (compute_degradation_series profile entries).1 = Entry.lap <$> ordered
  ∧ ordered ≡ₚ entries
  ∧ Sorted (λ a b, (Entry.frame a ≤ Entry.frame b)%Z) ordered
  ∧ ∀ f, filter (λ e, Entry.frame e = f) ordered
         = filter (λ e, Entry.frame e = f) entries.
Proof.
  intros ordered. rewrite compute_degradation_series_spec. simpl.
  rewrite series_lengths, series_laps. fold ordered.
  assert (length ordered = length entries) as Hlen by apply sorted_length.
  split_and!.
  - by rewrite length_fmap.
  - by rewrite length_fmap.
  - done.
  - apply sorted_perm.
  - eapply Sorted_weaken;
      [|exact (sorted_sorted Entry.frame Z.leb frame_leb_total entries)].
    intros a b. unfold Py.key_le. apply Z.leb_le.
  - intros f.
    pose proof (sorted_stable Entry.frame Z.leb frame_leb_total
                  (λ e, bool_decide (Entry.frame e = f)) entries) as H.
    assert (∀ l : list Entry.t,
              filter (λ e, Entry.frame e = f) l
              = filter (λ e, bool_decide (Entry.frame e = f) = true) l) as E.
    { intros l. apply list_filter_iff. intros e.
      by rewrite bool_decide_eq_true. }
    rewrite !E. apply H.
    intros a b ->%bool_decide_eq_true ->%bool_decide_eq_true.
    apply Z.leb_refl.
Qed.

(** ** Where a stint's points land in the series *)







Lemma health_pct_formula el start_life start_lap lap :
  (1 < el)%Z →
  health_pct el start_life start_lap lap
  = health_formula el start_life start_lap lap.
Proof.
  intros H. unfold health_pct, health_formula.
  by rewrite (proj2 (Z.ltb_lt _ _) H).
Qed.

Lemma health_pct_flat el start_life start_lap lap :
  (el ≤ 1)%Z → health_pct el start_life start_lap lap = hundred.
Proof.
  intros H. unfold health_pct. by rewrite (proj2 (Z.ltb_ge _ _) H).
Qed.



(** ** Bounds on the health value *)

Lemma Qc_of_Z_nonneg n : (0 ≤ n)%Z → (0 ≤ Qc_of_Z n)%Qc.
Proof. intros H. rewrite <-Z2Qc_inj_0. by rewrite <-Z2Qc_inj_le. Qed.

Lemma Qc_of_Z_pos n : (0 < n)%Z → (0 < Qc_of_Z n)%Qc.
Proof. intros H. rewrite <-Z2Qc_inj_0. by rewrite <-Z2Qc_inj_lt. Qed.

Lemma Qc_div_nonneg (a b : Qc) : (0 ≤ a → 0 < b → 0 ≤ a / b)%Qc.
Proof.
  intros Ha Hb. apply (Qcmult_lt_0_le_reg_r _ _ b); [done|].
  rewrite Qcmult_0_l, Qcmult_comm, Qcmult_div_r; [done|].
  intros ->. by apply (Qclt_not_eq _ _ Hb).
Qed.

Lemma health_pct_le_hundred el start_life start_lap lap :
  (health_pct el start_life start_lap lap ≤ hundred)%Qc.
Proof.
  unfold health_pct. destruct (1 <? el)%Z eqn:E; [|apply Qcle_refl].
  apply Z.ltb_lt in E.
  set (a := Qc_of_Z (Z.max 0 _)). set (b := Qc_of_Z (el - 1)).
  assert (0 ≤ a)%Qc as Ha by (apply Qc_of_Z_nonneg; lia).
  assert (0 < b)%Qc as Hb by (apply Qc_of_Z_pos; lia).
  assert (0 ≤ hundred)%Qc as Hh by (by apply Qc_of_Z_nonneg).
  pose proof (Qcmult_le_compat_r _ _ _ (Qc_div_nonneg a b Ha Hb) Hh) as Ht.
  rewrite Qcmult_0_l in Ht.
  apply Qcle_minus_iff.
  replace (hundred + - (hundred - a / b * hundred))%Qc
    with (a / b * hundred)%Qc by ring.
  done.
Qed.

Lemma stint_health_le_hundred profile st y :
  y ∈ stint_health profile st → (y ≤ hundred)%Qc.
Proof.
  unfold stint_health. intros (p & -> & _)%list_elem_of_fmap.
  apply health_pct_le_hundred.
Qed.

Lemma elem_of_concat {A} (x : A) (L : list (list A)) :
  x ∈ concat L → ∃ l, x ∈ l ∧ l ∈ L.
Proof.
  induction L as [|l L IH]; simpl; [by intros ?%elem_of_nil|].
  intros [H|H]%elem_of_app.
  - exists l. split; [done|left].
  - destruct (IH H) as (l' & ? & ?). exists l'. split; [done|by right].
Qed.

Lemma series_le_hundred profile entries y :
  y ∈ (compute_degradation_series profile entries).2 → (y ≤ hundred)%Qc.
Proof.
  rewrite compute_degradation_series_spec. simpl.
  intros (l & Hy & (st & -> & _)%list_elem_of_fmap)%elem_of_concat.
  by eapply stint_health_le_hundred.
Qed.

(** C9, as the specification states it, fails: no stint yields a health
    value above 100, so "below 0 for some input and above 100 for some
    input" cannot both hold. *)
Lemma health_above_hundred_impossible :
  ¬ ((∃ profile st y,
        y ∈ (plot_stint profile ([], []) st).2 ∧ (y < 0)%Qc)
     ∧ (∃ profile st y,
          y ∈ (plot_stint profile ([], []) st).2 ∧ (hundred < y)%Qc)).
Proof.
  intros (_ & profile & st & y & Hy & Hgt).
  rewrite plot_stint_spec in Hy. simpl in Hy.
  apply stint_health_le_hundred in Hy. by apply Qcle_not_lt in Hy.
Qed.

(** C9 (amended). Health is not clamped from below: a stint run past the
    expected life yields a value below 0.  It never exceeds 100, because
    the progress is floored at 0. *)
Theorem health_unclamped_below_only :
  (∃ st y,
     y ∈ (plot_stint (expected_tyre_life init_window) ([], []) st).2
     ∧ (y < 0)%Qc)
  ∧ (∀ profile st y,
       y ∈ (plot_stint profile ([], []) st).2 → (y ≤ hundred)%Qc)
  ∧ (∀ profile entries y,
       y ∈ (compute_degradation_series profile entries).2 →
       (y ≤ hundred)%Qc).
Proof.
  split_and!.
  - exists (Stint.mk 0 1 1 [1; 22] [1; 22])%Z, (health_pct 20 1 1 22).
    split.
    + rewrite plot_stint_spec. simpl. right. left.
    + vm_compute. reflexivity.
  - intros profile st y Hy. rewrite plot_stint_spec in Hy. simpl in Hy.
    by eapply stint_health_le_hundred.
  - apply series_le_hundred.
Qed.

Lemma health_unclamped_below_only_witness :
  (health_pct 30 5 1 1 ≤ hundred)%Qc.
Proof.
  destruct health_unclamped_below_only as (_ & H & _).
  apply (H (expected_tyre_life init_window)
           (Stint.mk 2 5 1 [5] [1])%Z).
  rewrite plot_stint_spec. simpl. left.
Defined.

(** ** Compounds outside the profile *)

Lemma shipped_profile_lookup compound :
  ¬ (0 ≤ compound ≤ 4)%Z →
  expected_tyre_life init_window !! compound = None.
Proof.
  intros H. simpl.
  rewrite !lookup_insert_ne by lia. apply lookup_empty.
Qed.

Lemma stint_health_default profile st :
  profile !! Stint.compound st = None →
  stint_health profile st
  = (λ p, health_formula 25 (Stint.start_life st) (Stint.start_lap st) p.2)
      <$> Stint.samples st.
Proof.
  intros H. unfold stint_health, expected_life_of. rewrite H. simpl.
  apply list_fmap_ext. intros _ p _. by apply health_pct_formula.
Qed.

(** C7. A compound code without an entry in the expected-life profile
    (for the shipped profile: any code other than 0..4) is given an
    expected life of 25 laps, and the stint's curve is the formula at 25;
    the series has a point for every entry, whatever the compound codes
    are. *)
Theorem unknown_compound_default :
  (∀ (profile : gmap Z Z) compound,
     profile !! compound = None → expected_life_of profile compound = 25%Z)
  ∧ (∀ compound,
       ¬ (0 ≤ compound ≤ 4)%Z →
       expected_life_of (expected_tyre_life init_window) compound = 25%Z)
  ∧ (∀ (profile : gmap Z Z) st,
       profile !! Stint.compound st = None →
       plot_stint profile ([], []) st
       = (stint_laps st,
          (λ p, health_formula 25 (Stint.start_life st) (Stint.start_lap st)
                               p.2) <$> Stint.samples st))
  ∧ (∀ (profile : gmap Z Z) entries,
       length (compute_degradation_series profile entries).2
       = length entries).
Proof.
  split_and!.
  - intros profile compound H. unfold expected_life_of. by rewrite H.
  - intros compound H. unfold expected_life_of.
    by rewrite shipped_profile_lookup.
  - intros profile st H. rewrite plot_stint_spec. simpl.
    by rewrite stint_health_default.
  - intros profile entries. rewrite compute_degradation_series_spec. simpl.
    rewrite series_lengths, series_laps, length_fmap. apply sorted_length.
Qed.

Lemma unknown_compound_default_witness :
  expected_life_of (expected_tyre_life init_window) 7 = 25%Z
  ∧ plot_stint (expected_tyre_life init_window) ([], [])
               (Stint.mk 7 1 1 [1; 2] [1; 2])%Z
    = ([1; 2]%Z, [health_formula 25 1 1 1; health_formula 25 1 1 2]).
Proof.
  destruct unknown_compound_default as (_ & H2 & H3 & _). split.
  - apply H2. lia.
  - apply (H3 (expected_tyre_life init_window)
              (Stint.mk 7 1 1 [1; 2] [1; 2])%Z).
    apply shipped_profile_lookup. simpl. lia.
Defined.

(* ===================================================================== *)
(** * The store                                                           *)
(* ===================================================================== *)

Lemma last_n_length {A} n (l : list A) :
  length (Py.last_n n l) = length l `min` n.
Proof. unfold Py.last_n. rewrite length_drop. lia. Qed.

Lemma last_n_all {A} n (l : list A) : length l ≤ n → Py.last_n n l = l.
Proof.
  intros H. unfold Py.last_n.
  replace (length l - n) with 0 by lia. done.
Qed.

Lemma last_n_snoc {A} n (l : list A) x :
  0 < n → Py.last_n n (Py.last_n n l ++ [x]) = Py.last_n n (l ++ [x]).
Proof.
  intros Hn. unfold Py.last_n.
  rewrite !length_app, length_drop. simpl.
  destruct (decide (length l ≤ n)) as [Hle|Hgt].
  - replace (length l - n) with 0 by lia. simpl.
    by replace (length l - 0 + 1 - n) with (length l + 1 - n) by lia.
  - replace (length l - (length l - n) + 1 - n) with 1 by lia.
    replace (length l + 1 - n) with (S (length l - n)) by lia.
    rewrite drop_app_le by (rewrite length_drop; lia).
    rewrite (drop_app_le l) by lia.
    by rewrite drop_drop, Nat.add_1_r.
Qed.

(** One pass of the recording loop: append, then keep the last 1000. *)
Lemma record_spec frame_index (dd : gmap string (list Entry.t)) code pos :
  record frame_index dd (code, pos)
  = <[code := Py.last_n 1000
                (default [] (dd !! code) ++ [entry_of frame_index pos])]> dd.
Proof.
  unfold record. fold (entry_of frame_index pos).
  set (e := entry_of frame_index pos).
  destruct (dd !! code) as [h|] eqn:Hh; simpl.
  - rewrite lookup_alter_eq, Hh. simpl.
    destruct (decide (1000 < length (h ++ [e]))) as [Hlt|Hle].
    + apply map_eq. intros k. destruct (decide (k = code)) as [->|Hne].
      * by rewrite !lookup_insert_eq.
      * by rewrite !lookup_insert_ne, lookup_alter_ne by done.
    + rewrite last_n_all by lia.
      apply map_eq. intros k. destruct (decide (k = code)) as [->|Hne].
      * by rewrite lookup_alter_eq, lookup_insert_eq, Hh.
      * by rewrite lookup_insert_ne, lookup_alter_ne by done.
  - rewrite lookup_alter_eq, lookup_insert_eq. simpl.
    destruct (decide (1000 < 1)) as [Hlt|_]; [lia|].
    apply map_eq. intros k. destruct (decide (k = code)) as [->|Hne].
    + by rewrite lookup_alter_eq, !lookup_insert_eq.
    + by rewrite lookup_alter_ne, !lookup_insert_ne by done.
Qed.

Lemma record_store_ok frame_index dd item :
  store_ok dd → store_ok (record frame_index dd item).
Proof.
  destruct item as [code pos]. rewrite record_spec.
  intros Hok k h. destruct (decide (k = code)) as [->|Hne].
  - rewrite lookup_insert_eq. intros [= <-]. split.
    + intros Hnil. apply (f_equal length) in Hnil.
      rewrite last_n_length, length_app in Hnil. simpl in Hnil. lia.
    + rewrite last_n_length. lia.
  - rewrite lookup_insert_ne by done. apply Hok.
Qed.

Lemma foldl_record_store_ok frame_index drivers dd :
  store_ok dd → store_ok (foldl (record frame_index) dd drivers).
Proof.
  revert dd. induction drivers as [|item drivers IH]; intros dd Hok; [done|].
  simpl. by apply IH, record_store_ok.
Qed.

Lemma store_ok_empty : store_ok ∅.
Proof. intros code h. by rewrite lookup_empty. Qed.

Lemma driver_data_update_plot w : driver_data (update_plot w) = driver_data w.
Proof. done. Qed.

Lemma driver_data_sync_combo desired w :
  driver_data (sync_combo desired w) = driver_data w.
Proof. unfold sync_combo. by repeat case_decide. Qed.

Lemma on_telemetry_data_store_ok data w :
  store_ok (driver_data w) → store_ok (driver_data (on_telemetry_data data w)).
Proof.
  intros Hok. unfold on_telemetry_data.
  destruct (Data.frame data ≫= Data.drivers) as [drivers|]; [|done].
  simpl. apply foldl_record_store_ok. by rewrite driver_data_sync_combo.
Qed.

Lemma handle_store_ok w ev :
  store_ok (driver_data w) → store_ok (driver_data (handle w ev)).
Proof.
  intros Hok. destruct ev as [data|driver| |]; simpl.
  - by apply on_telemetry_data_store_ok.
  - unfold on_driver_changed. by destruct (String.eqb driver "").
  - apply store_ok_empty.
  - done.
Qed.

(** Every history of a reachable window is non-empty and within the cap. *)
Lemma run_store_ok evs : store_ok (driver_data (run evs)).
Proof.
  unfold run. induction evs as [|ev evs IH] using rev_ind.
  - apply store_ok_empty.
  - rewrite foldl_app. simpl. by apply handle_store_ok.
Qed.

(** C8. Drawing the plot reads the store, the selection and the profile
    and writes the figure only; what it draws is a function of those
    three, so a second pass with nothing recorded in between draws the
    same figure and leaves the same window. *)
Theorem update_plot_pure (w : window) :
  driver_data (update_plot w) = driver_data w
  ∧ current_driver (update_plot w) = current_driver w
  ∧ expected_tyre_life (update_plot w) = expected_tyre_life w
  ∧ degradation_rates (update_plot w) = degradation_rates w
  ∧ driver_combo (update_plot w) = driver_combo w
  ∧ figure (update_plot w)
    = render (expected_tyre_life w) (driver_data w) (current_driver w)
  ∧ figure (update_plot (update_plot w)) = figure (update_plot w)
  ∧ update_plot (update_plot w) = update_plot w.
Proof. by destruct w. Qed.

(** C6. With no telemetry in the store the plot is the "waiting"
    placeholder: it is so for the empty store, and in every reachable
    window whose histories are all empty; the placeholder carries no
    curve, no title and the unit axes. *)
Theorem empty_store_placeholder :
  (∀ w, driver_data w = ∅ → figure (update_plot w) = placeholder_axes)
  ∧ (∀ evs,
       no_telemetry (driver_data (run evs)) →
       figure (update_plot (run evs)) = placeholder_axes)
  ∧ lines placeholder_axes = []
  ∧ texts placeholder_axes ≠ []
  ∧ title placeholder_axes = None.
Proof.
  assert (∀ w, driver_data w = ∅ → figure (update_plot w) = placeholder_axes)
    as Hempty.
  { intros w H. simpl. unfold render. by rewrite decide_True. }
  split_and!; [done| |done..].
  intros evs Hno. apply Hempty. apply map_empty. intros code.
  destruct (driver_data (run evs) !! code) as [h|] eqn:Hh; [|done].
  destruct (run_store_ok evs code h Hh) as [Hne _].
  by destruct Hne; eapply Hno.
Qed.

Lemma empty_store_placeholder_witness :
  figure (update_plot
            (run [Telemetry (frame_for "VER" (Entry.mk 1 0 1 1)); Refresh]))
  = placeholder_axes.
Proof.
  destruct empty_store_placeholder as (_ & H & _).
  apply (H [Telemetry (frame_for "VER" (Entry.mk 1 0 1 1)); Refresh]).
  intros code h. simpl. by rewrite lookup_empty.
Defined.

(** ** Retention *)

Lemma entry_of_frame_for e :
  entry_of (Entry.frame e)
           (Pos.mk (Some (Entry.tyre e)) (Some (Entry.tyre_life e))
                   (Some (Entry.lap e)))
  = e.
Proof. by destruct e. Qed.

Lemma on_telemetry_data_frame_for code e w :
  driver_data (on_telemetry_data (frame_for code e) w)
  = <[code := Py.last_n 1000 (default [] (driver_data w !! code) ++ [e])]>
      (driver_data w).
Proof.
  unfold on_telemetry_data, frame_for. simpl.
  rewrite record_spec, driver_data_sync_combo. by rewrite entry_of_frame_for.
Qed.

Lemma feed_snoc code samples e w :
  feed code (samples ++ [e]) w
  = on_telemetry_data (frame_for code e) (feed code samples w).
Proof. unfold feed. by rewrite foldl_app. Qed.

Lemma feed_history code samples w :
  samples ≠ [] →
  driver_data (feed code samples w) !! code
  = Some (Py.last_n 1000 (default [] (driver_data w !! code) ++ samples)).
Proof.
  induction samples as [|e samples IH] using rev_ind; [done|]. intros _.
  rewrite feed_snoc, on_telemetry_data_frame_for, lookup_insert_eq.
  destruct samples as [|e' samples'] eqn:Hs.
  - done.
  - rewrite IH by done. simpl. rewrite last_n_snoc by lia.
    by rewrite <-app_assoc.
Qed.

(** C5. Recording a sample leaves the driver's history with at most 1000
    entries, and so has every history of a reachable window.  Feeding the
    samples of one driver leaves the last 1000 of them, in order; after
    1005 samples these are the samples without the first five. *)
Theorem history_capped :
  (∀ frame_index (dd : gmap string (list Entry.t)) code pos,
     ∃ h, record frame_index dd (code, pos) !! code = Some h
          ∧ length h ≤ 1000)
  ∧ (∀ evs code h,
       driver_data (run evs) !! code = Some h → length h ≤ 1000)
  ∧ (∀ code samples w,
       samples ≠ [] →
       driver_data (feed code samples w) !! code
       = Some (Py.last_n 1000
                 (default [] (driver_data w !! code) ++ samples)))
  ∧ (∀ code samples,
       length samples = 1005 →
       driver_data (feed code samples init_window) !! code
       = Some (drop 5 samples)
       ∧ length (drop 5 samples) = 1000).
Proof.
  split_and!.
  - intros frame_index dd code pos. rewrite record_spec, lookup_insert_eq.
    eexists. split; [done|]. rewrite last_n_length. lia.
  - intros evs code h Hh. by destruct (run_store_ok evs code h Hh).
  - intros code samples w. apply feed_history.
  - intros code samples Hlen. split.
    + rewrite feed_history by (by intros ->).
      simpl. rewrite lookup_empty. simpl. unfold Py.last_n. by rewrite Hlen.
    + rewrite length_drop. lia.
Qed.

Lemma history_capped_witness :
  let samples := (λ i, Entry.mk i 0 i i) <$> seqZ 0 1005 in
  driver_data (feed "VER" samples init_window) !! "VER"
  = Some (drop 5 samples).
Proof.
  intros samples.
  destruct history_capped as (_ & _ & _ & H).
  apply (H "VER" samples). vm_compute. reflexivity.
Defined.

(* ===================================================================== *)
(** * The selection                                                       *)
(* ===================================================================== *)

Lemma render_single profile (dd : gmap string (list Entry.t)) selection :
  dd ≠ ∅ → selection ≠ "" → selection ≠ all_drivers →
  render profile dd selection = single_driver_axes profile dd selection.
Proof.
  intros Hdd H1 H2. unfold render. rewrite decide_False by done.
  apply String.eqb_neq in H1, H2. by rewrite H1, H2.
Qed.


Lemma single_driver_axes_absent profile (dd : gmap string (list Entry.t))
    driver :
  dd !! driver = None →
  lines (single_driver_axes profile dd driver) = []
  ∧ title (single_driver_axes profile dd driver) = Some (title_for driver).
Proof. intros H. unfold single_driver_axes. by rewrite H. Qed.


Lemma sync_combo_selection desired w :
  all_drivers ∈ desired →
  current_driver w ∈ driver_combo w →
  current_driver (sync_combo desired w) ∈ driver_combo (sync_combo desired w).
Proof.
  intros Hall Hin. unfold sync_combo.
  destruct (decide (driver_combo w = desired)) as [Heq|_]; [done|]. simpl.
  by destruct (decide (current_driver w ∈ desired)).
Qed.









(* ===================================================================== *)
(** * Worked examples                                                     *)
(* ===================================================================== *)

(** Same compound with a life reset, then a compound change. *)
Example build_stints_example :
  build_stints [(1, 0, 1); (2, 0, 2); (1, 0, 3); (2, 1, 4)]%Z
  = [Stint.mk 0 1 1 [1; 2] [1; 2]; Stint.mk 0 1 3 [1] [3];
     Stint.mk 1 2 4 [2] [4]]%Z.
Proof. reflexivity. Qed.

(** Entries are read by ascending frame, ties in stored order. *)
Example history_of_example :
  history_of [Entry.mk 3 1 1 7; Entry.mk 1 0 4 5; Entry.mk 3 1 2 8;
              Entry.mk 2 0 5 6]%Z
  = [(4, 0, 5); (5, 0, 6); (1, 1, 7); (2, 1, 8)]%Z.
Proof. reflexivity. Qed.

(** Entries that arrive with non-decreasing frames are read as stored. *)
Lemma history_of_arrival_order entries :
  Sorted (λ a b, (Entry.frame a ≤ Entry.frame b)%Z) entries →
  history_of entries
  = (λ e, (Entry.tyre_life e, Entry.tyre e, Entry.lap e)) <$> entries.
Proof.
  intros H. unfold history_of. rewrite sorted_id; [done|].
  eapply Sorted_weaken; [|exact H].
  intros a b. unfold Py.key_le. apply Z.leb_le.
Qed.

(** A fresh soft tyre is at 100 on its first lap, at 0 after 19 more laps
    and below 0 beyond. *)
Example health_soft_first_lap : health_pct 20 1 5 5 = hundred.
Proof. apply Qc_is_canon. reflexivity. Qed.

Example health_soft_expected_life : health_pct 20 1 5 24 = Qc_of_Z 0.
Proof. apply Qc_is_canon. reflexivity. Qed.

Example health_soft_overused : (health_pct 20 1 5 26 < Qc_of_Z 0)%Qc.
Proof. vm_compute. reflexivity. Qed.

(** A tyre fitted with 6 laps on it starts below 100. *)
Example health_used_tyre : health_pct 26 6 10 10 = Qc_of_Z 80.
Proof. apply Qc_is_canon. reflexivity. Qed.

(** A reset keeps the selection; with the store empty the placeholder is
    drawn, and the driver's view comes back with its next frame. *)
Example selection_survives_reset :
  let f := frame_for "VER" (Entry.mk 1 0 1 1) in
  let w := run [Telemetry f; DriverChanged "VER"; Refresh] in
  current_driver w = "VER"
  ∧ driver_combo w = ["All Drivers"; "VER"]
  ∧ figure w = placeholder_axes
  ∧ title (figure (update_plot (on_telemetry_data f w)))
    = Some "Tyre Degradation Analysis - VER".
Proof. vm_compute. done. Qed.

(** All drivers are drawn in the order of their codes. *)
Example all_drivers_order :
  let w := run [Telemetry (frame_for "VER" (Entry.mk 1 0 1 1));
                Telemetry (frame_for "HAM" (Entry.mk 2 1 1 1))] in
  label <$> lines (figure (update_plot w)) = ["HAM"; "VER"]
  ∧ line_color <$> lines (figure (update_plot w)) = [Tab10 0; Tab10 1]
  ∧ xlim (figure (update_plot w)) = Some (0, 2)%Z.
Proof. vm_compute. done. Qed.

(* ===================================================================== *)
(** * Further properties of the stint loop                                *)
(* ===================================================================== *)

(** The current stint carries the compound and ends with the life of the
    sample read last. *)
Lemma loop_run_current xs x :
  ∃ ss cur,
    loop_run (xs ++ [x]) = mk_loop (ss ++ [cur]) (Some (length ss)) (Some x.1.1)
    ∧ Stint.compound cur = x.1.2
    ∧ last (Stint.lives cur) = Some x.1.1.
Proof.
  rewrite loop_run_snoc. destruct x as [[life c] lap].
  destruct xs as [|y xs _] using rev_ind.
  - exists [], (Stint.mk c life lap [life] [lap]). done.
  - destruct (loop_run_shape xs y) as (ss & cur & ->).
    rewrite loop_body_current.
    destruct (negb (Stint.compound cur =? c)%Z || (life <? y.1.1)%Z) eqn:E.
    + exists (ss ++ [cur]), (Stint.mk c life lap [life] [lap]). done.
    + exists ss, (Stint.append life lap cur). split_and!; [done| |].
      * apply orb_false_iff in E as [E _].
        apply negb_false_iff in E. simpl. by apply Z.eqb_eq.
      * simpl. by rewrite last_snoc.
Qed.

Lemma loop_run_homogeneous xs :
  concat (stint_compounds <$> stints (loop_run xs)) = (λ x, x.1.2) <$> xs
  ∧ concat (Stint.lives <$> stints (loop_run xs)) = (λ x, x.1.1) <$> xs
  ∧ Forall (λ st, Sorted Z.le (Stint.lives st)) (stints (loop_run xs)).
Proof.
  induction xs as [|x xs (IHc & IHl & IHs)] using rev_ind; [by split_and!|].
  rewrite loop_run_snoc. destruct x as [[life c] lap].
  destruct xs as [|y xs _] using rev_ind.
  - split_and!; [done|done|]. repeat constructor.
  - destruct (loop_run_current xs y) as (ss & cur & Hrun & Hcomp & Hlast).
    rewrite Hrun in IHc, IHl, IHs |- *. simpl in IHc, IHl, IHs.
    rewrite loop_body_current.
    rewrite !fmap_app, !concat_app in IHc, IHl. simpl in IHc, IHl.
    rewrite !app_nil_r in IHc, IHl.
    apply Forall_app in IHs as [Hss Hcur]. rewrite Forall_singleton in Hcur.
    destruct (negb (Stint.compound cur =? c)%Z || (life <? y.1.1)%Z) eqn:E;
      simpl.
    + rewrite !fmap_app, !concat_app. simpl. rewrite !app_nil_r.
      rewrite IHc, IHl. split_and!; [done|done|].
      rewrite !Forall_app, !Forall_singleton. split_and!; [done|done|].
      repeat constructor.
    + apply orb_false_iff in E as [Ec El].
      apply negb_false_iff, Z.eqb_eq in Ec. apply Z.ltb_ge in El.
      rewrite !fmap_app, !concat_app. simpl. rewrite !app_nil_r.
      split_and!.
      * unfold stint_compounds in *. simpl.
        rewrite length_app, Nat.add_1_r, replicate_S_end.
        rewrite app_assoc, IHc. by rewrite Ec.
      * by rewrite app_assoc, IHl.
      * rewrite Forall_app, Forall_singleton. split; [done|]. simpl.
        apply Sorted_snoc; [done|].
        destruct (Stint.lives cur) as [|l0 ls _] using rev_ind;
          [constructor|].
        rewrite last_snoc in Hlast. injection Hlast as ->.
        by constructor.
Qed.

(** X1. Every stint holds samples of one compound, the stint's own, and
    tyre lives that never decrease from one sample to the next. *)
Theorem stints_are_homogeneous (xs : list (Z * Z * Z)) :
  concat (stint_compounds <$> build_stints xs) = (λ x, x.1.2) <$> xs
  ∧ concat (Stint.lives <$> build_stints xs) = (λ x, x.1.1) <$> xs
  ∧ Forall (λ st, Sorted Z.le (Stint.lives st)) (build_stints xs).
Proof. apply loop_run_homogeneous. Qed.

Lemma is_new_stint_current ss cur p life compound :
  is_new_stint (mk_loop (ss ++ [cur]) (Some (length ss)) (Some p)) life compound
  = negb (Stint.compound cur =? compound)%Z || (life <? p)%Z.
Proof. unfold is_new_stint. by rewrite deref_last. Qed.

Lemma build_stints_length_snoc xs life compound lap :
  length (build_stints (xs ++ [(life, compound, lap)]))
  = length (build_stints xs)
    + (if is_new_stint (loop_run xs) life compound then 1 else 0).
Proof.
  unfold build_stints. rewrite loop_run_snoc, loop_body_stints.
  destruct (is_new_stint _ _ _).
  - by rewrite length_app.
  - rewrite Nat.add_0_r. destruct (current_stint _); [|done].
    apply length_alter.
Qed.

Lemma build_stints_nonempty xs : xs ≠ [] → 1 ≤ length (build_stints xs).
Proof.
  destruct xs as [|x xs _] using rev_ind; [done|]. intros _.
  destruct (build_stints_snoc_shape xs x) as (ss & cur & ->).
  rewrite length_app. simpl. lia.
Qed.

(** X2. No samples give no stints; otherwise there is at least one stint
    and never more stints than samples. *)
Theorem stint_count_bounds (xs : list (Z * Z * Z)) :
  (xs = [] → build_stints xs = [])
  ∧ (xs ≠ [] → 1 ≤ length (build_stints xs))
  ∧ length (build_stints xs) ≤ length xs.
Proof.
  split_and!.
  - by intros ->.
  - apply build_stints_nonempty.
  - induction xs as [|[[life c] lap] xs IH] using rev_ind; [done|].
    rewrite build_stints_length_snoc, length_app. simpl.
    destruct (is_new_stint _ _ _); lia.
Qed.

Lemma stint_count_bounds_witness :
  1 ≤ length (build_stints [(3, 1, 7); (2, 1, 8)]%Z).
Proof.
  by apply (stint_count_bounds [(3, 1, 7); (2, 1, 8)]%Z).
Defined.

Lemma unbroken_snoc xs y x :
  unbroken ((xs ++ [y]) ++ [x])
  ↔ unbroken (xs ++ [y]) ∧ y.1.2 = x.1.2 ∧ (y.1.1 ≤ x.1.1)%Z.
Proof.
  unfold unbroken. split.
  - intros H. split.
    + intros i prev z Hi Hz. apply (H i).
      * apply lookup_app_l_Some. done.
      * apply lookup_app_l_Some. done.
    + apply (H (length xs)).
      * rewrite <-app_assoc. simpl. by rewrite list_lookup_middle.
      * rewrite lookup_app_r; rewrite length_app; simpl; [|lia].
        by replace (S (length xs) - (length xs + 1)) with 0 by lia.
  - intros [H Hlast] i prev z Hi Hz.
    pose proof (lookup_lt_Some _ _ _ Hz) as Hlt.
    rewrite !length_app in Hlt. simpl in Hlt.
    destruct (decide (S i < length xs + 1)) as [Hin|Hout].
    + apply (H i).
      * rewrite lookup_app_l in Hi; [done|]. rewrite length_app. simpl. lia.
      * rewrite lookup_app_l in Hz; [done|]. rewrite length_app. simpl. lia.
    + assert (i = length xs) as -> by lia.
      rewrite <-app_assoc in Hi. simpl in Hi.
      rewrite list_lookup_middle in Hi by done.
      rewrite lookup_app_r in Hz; rewrite length_app in *; simpl in *; [|lia].
      replace (S (length xs) - (length xs + 1)) with 0 in Hz by lia.
      simpl in Hz. by simplify_eq.
Qed.

(** X3. A non-empty history is kept as one single stint exactly when all
    neighbouring samples share the compound and the tyre life never
    decreases from a sample to the next. *)
Theorem single_stint_iff (xs : list (Z * Z * Z)) :
  xs ≠ [] → (length (build_stints xs) = 1 ↔ unbroken xs).
Proof.
  induction xs as [|[[life c] lap] xs IH] using rev_ind; [done|]. intros _.
  rewrite build_stints_length_snoc.
  destruct xs as [|y xs _] using rev_ind.
  - simpl. split; [|done]. intros _ i prev z Hi Hz.
    by destruct i.
  - rewrite unbroken_snoc, <-IH by (by destruct xs).
    destruct (loop_run_current xs y) as (ss & cur & Hrun & Hcomp & _).
    rewrite Hrun, is_new_stint_current, Hcomp.
    pose proof (build_stints_nonempty (xs ++ [y]) ltac:(by destruct xs))
      as Hge.
    simpl.
    destruct (negb (y.1.2 =? c)%Z || (life <? y.1.1)%Z) eqn:E.
    + split; [lia|]. intros (_ & Hc & Hl).
      apply orb_true_iff in E as [E|E].
      * apply negb_true_iff, Z.eqb_neq in E. done.
      * apply Z.ltb_lt in E. lia.
    + apply orb_false_iff in E as [Ec El].
      apply negb_false_iff, Z.eqb_eq in Ec. apply Z.ltb_ge in El.
      split; [|lia]. intros H. split_and!; [lia|done|done].
Qed.

Lemma single_stint_iff_witness :
  length (build_stints [(1, 0, 1); (2, 0, 2); (2, 0, 3)]%Z) = 1.
Proof.
  apply single_stint_iff; [done|].
  intros i prev x Hi Hx.
  destruct i as [|[|i]]; simpl in Hi, Hx; simplify_eq; simpl; lia.
Defined.

(** X4. Samples that arrive later never change the stints that were
    already closed: they stay in place, and the stint that was current
    keeps its compound, its anchors and the samples it had, in front of
    whatever is appended to it. *)
Theorem closed_stints_are_final (xs ys : list (Z * Z * Z)) ss cur :
  build_stints xs = ss ++ [cur] →
  ∃ cur' rest,
    build_stints (xs ++ ys) = ss ++ cur' :: rest
    ∧ Stint.samples cur `prefix_of` Stint.samples cur'
    ∧ Stint.compound cur' = Stint.compound cur
    ∧ Stint.start_life cur' = Stint.start_life cur
    ∧ Stint.start_lap cur' = Stint.start_lap cur.
Proof.
  intros Hxs. induction ys as [|[[life c] lap] ys IH] using rev_ind.
  { exists cur, []. rewrite app_nil_r. by split_and!. }
  destruct IH as (cur' & rest & Hb & Hpre & Hc & Hl & Hp).
  rewrite app_assoc. remember (xs ++ ys) as zs eqn:Hzs. clear Hzs.
  destruct (loop_run_spec zs) as [Hwf _].
  unfold build_stints in *. rewrite loop_run_snoc.
  destruct zs as [|z zs _] using rev_ind.
  { simpl in Hb. by destruct ss. }
  destruct (loop_run_shape zs z) as (ss0 & c0 & Hrun).
  rewrite Hrun in Hb, Hwf |- *. simpl in Hb, Hwf.
  rewrite loop_body_current.
  destruct (negb _ || _); simpl.
  - exists cur', (rest ++ [Stint.mk c life lap [life] [lap]]).
    rewrite Hb. rewrite <-app_assoc. by split_and!.
  - apply Forall_app in Hwf as [_ Hc0]. rewrite Forall_singleton in Hc0.
    destruct rest as [|r rest _] using rev_ind.
    + apply app_inj_tail in Hb as [-> ->].
      exists (Stint.append life lap cur'), []. split_and!; try done.
      rewrite samples_append by done.
      by apply prefix_app_r.
    + change (ss ++ cur' :: rest ++ [r]) with (ss ++ (cur' :: rest) ++ [r])
        in Hb.
      rewrite app_assoc in Hb. apply app_inj_tail in Hb as [-> ->].
      exists cur', (rest ++ [Stint.append life lap r]).
      rewrite <-app_assoc. by split_and!.
Qed.

Lemma closed_stints_are_final_witness :
  ∃ cur' rest,
    build_stints ([(1, 0, 1); (1, 1, 2)] ++ [(2, 1, 3); (1, 1, 4)])%Z
    = [Stint.mk 0 1 1 [1] [1]]%Z ++ cur' :: rest.
Proof.
  destruct (closed_stints_are_final
              [(1, 0, 1); (1, 1, 2)]%Z [(2, 1, 3); (1, 1, 4)]%Z
              [Stint.mk 0 1 1 [1] [1]]%Z (Stint.mk 1 1 2 [1] [2])%Z eq_refl)
    as (cur' & rest & H & _).
  by exists cur', rest.
Defined.

(* ===================================================================== *)
(** * Further properties of the health value                              *)
(* ===================================================================== *)

Lemma progress_nonneg start_life start_lap lap :
  (0 ≤ progress start_life start_lap lap)%Z.
Proof. unfold progress. lia. Qed.

Lemma health_pct_progress el start_life start_lap lap :
  (1 < el)%Z →
  health_pct el start_life start_lap lap
  = (hundred / Qc_of_Z (el - 1)
     * (Qc_of_Z (el - 1) - Qc_of_Z (progress start_life start_lap lap)))%Qc.
Proof.
  intros H. unfold health_pct, progress.
  rewrite (proj2 (Z.ltb_lt _ _) H).
  assert (Qc_of_Z (el - 1) ≠ 0%Qc) as Hd.
  { intros Hz. apply (Qclt_not_eq 0 (Qc_of_Z (el - 1))); [|done].
    apply Qc_of_Z_pos. lia. }
  field. done.
Qed.

Lemma Qc_mul_pos_lt (k x y : Qc) : (0 < k → (k * x < k * y ↔ x < y))%Qc.
Proof.
  intros Hk. rewrite !(Qcmult_comm k). split.
  - intros Hlt. apply Qcnot_le_lt. intros Hle.
    apply (Qcle_not_lt _ _ (Qcmult_le_compat_r _ _ k Hle (Qclt_le_weak _ _ Hk))).
    done.
  - by apply Qcmult_lt_compat_r.
Qed.

Lemma Qc_mul_pos_le (k x y : Qc) : (0 < k → (k * x ≤ k * y ↔ x ≤ y))%Qc.
Proof.
  intros Hk. rewrite !Qcle_ngt. by rewrite Qc_mul_pos_lt.
Qed.

Lemma Qc_mul_pos_eq (k x y : Qc) : (0 < k → (k * x = k * y ↔ x = y))%Qc.
Proof.
  intros Hk. split; [|by intros ->]. intros H.
  apply Qcle_antisym; apply (Qc_mul_pos_le k); [done| |done|];
    rewrite H; apply Qcle_refl.
Qed.

Lemma health_scale_pos el : (1 < el)%Z → (0 < hundred / Qc_of_Z (el - 1))%Qc.
Proof.
  intros H.
  assert (0 < Qc_of_Z (el - 1))%Qc as Hd by (apply Qc_of_Z_pos; lia).
  apply Qcnot_le_lt. intros Hle.
  pose proof (Qcmult_le_compat_r _ _ _ Hle (Qclt_le_weak _ _ Hd)) as Hm.
  rewrite Qcmult_0_l, Qcmult_comm, Qcmult_div_r in Hm.
  - apply (Qcle_not_lt _ _ Hm). by apply Qc_of_Z_pos.
  - intros Hz. by apply (Qclt_not_eq _ _ Hd).
Qed.

(** X5. Health never rises along a stint: a later lap, or a tyre that was
    older when the stint began, never gives a higher value. *)
Theorem health_monotone el start_life start_life' start_lap lap lap' :
  (start_life ≤ start_life')%Z → (lap ≤ lap')%Z →
  (health_pct el start_life' start_lap lap'
   ≤ health_pct el start_life start_lap lap)%Qc.
Proof.
  intros Hs Hl. destruct (decide (1 < el)%Z) as [Hel|Hel].
  - rewrite !health_pct_progress by done.
    apply Qc_mul_pos_le; [by apply health_scale_pos|].
    apply Qcplus_le_compat; [apply Qcle_refl|].
    apply Qcopp_le_compat. rewrite <-Z2Qc_inj_le. unfold progress. lia.
  - rewrite !health_pct_flat by lia. apply Qcle_refl.
Qed.

Lemma health_monotone_witness :
  (health_pct 20 3 10 15 ≤ health_pct 20 1 10 12)%Qc.
Proof. apply health_monotone; lia. Defined.

Lemma health_pct_scaled el start_life start_lap lap :
  (1 < el)%Z →
  health_pct el start_life start_lap lap
  = (hundred / Qc_of_Z (el - 1)
     * Qc_of_Z (el - 1 - progress start_life start_lap lap))%Qc.
Proof.
  intros H. rewrite health_pct_progress by done.
  by rewrite (Z2Qc_inj_sub (el - 1)).
Qed.

Lemma hundred_scaled el :
  (1 < el)%Z → hundred = (hundred / Qc_of_Z (el - 1) * Qc_of_Z (el - 1))%Qc.
Proof.
  intros H.
  assert (Qc_of_Z (el - 1) ≠ 0%Qc) as Hd.
  { intros Hz. apply (Qclt_not_eq 0 (Qc_of_Z (el - 1))); [|done].
    apply Qc_of_Z_pos. lia. }
  field. done.
Qed.

(** X6. For an expected life above 1 the health is 100 exactly while no
    progress is charged, 0 exactly when the progress is the expected life
    less one, negative exactly beyond that and positive exactly before. *)
Theorem health_thresholds el start_life start_lap lap :
  (1 < el)%Z →
  let p := progress start_life start_lap lap in
  let h := health_pct el start_life start_lap lap in
  (h = hundred ↔ p = 0%Z)
  ∧ (h = 0%Qc ↔ p = (el - 1)%Z)
  ∧ ((h < 0)%Qc ↔ (el - 1 < p)%Z)
  ∧ ((0 < h)%Qc ↔ (p < el - 1)%Z).
Proof.
  intros Hel p h. unfold h. rewrite health_pct_scaled by done. fold p.
  pose proof (health_scale_pos el Hel) as Hk.
  set (k := (hundred / Qc_of_Z (el - 1))%Qc) in *.
  assert (0%Qc = (k * Qc_of_Z 0)%Qc) as H0.
  { by rewrite Z2Qc_inj_0, Qcmult_0_r. }
  split_and!.
  - rewrite (hundred_scaled el Hel) at 1. fold k.
    rewrite Qc_mul_pos_eq, Z2Qc_inj_iff by done. lia.
  - rewrite H0 at 1. rewrite Qc_mul_pos_eq, Z2Qc_inj_iff by done. lia.
  - rewrite H0 at 1. rewrite Qc_mul_pos_lt, <-Z2Qc_inj_lt by done. lia.
  - rewrite H0 at 1. rewrite Qc_mul_pos_lt, <-Z2Qc_inj_lt by done. lia.
Qed.

Lemma health_thresholds_witness :
  (health_pct 30 1 4 40 < 0)%Qc ↔ (30 - 1 < progress 1 4 40)%Z.
Proof.
  apply (health_thresholds 30 1 4 40). lia.
Defined.




(* ===================================================================== *)
(** * Further properties of the series                                    *)
(* ===================================================================== *)

Lemma insert_frame_comm x y (s : list Entry.t) :
  Entry.frame x ≠ Entry.frame y →
  Py.insert_stable Entry.frame Z.leb x (Py.insert_stable Entry.frame Z.leb y s)
  = Py.insert_stable Entry.frame Z.leb y
      (Py.insert_stable Entry.frame Z.leb x s).
Proof.
  intros Hne. induction s as [|z s IH]; simpl.
  - destruct (Z.leb_spec (Entry.frame x) (Entry.frame y)),
             (Z.leb_spec (Entry.frame y) (Entry.frame x)); try done; lia.
  - destruct (Z.leb_spec (Entry.frame x) (Entry.frame z)),
             (Z.leb_spec (Entry.frame y) (Entry.frame z)); simpl;
      repeat match goal with
             | |- context [(?a <=? ?b)%Z] => destruct (Z.leb_spec a b)
             end; try done; try lia.
    by rewrite IH.
Qed.

Lemma sorted_by_frame_perm (l1 l2 : list Entry.t) :
  l1 ≡ₚ l2 → NoDup (Entry.frame <$> l1) →
  Py.sorted Entry.frame Z.leb l1 = Py.sorted Entry.frame Z.leb l2.
Proof.
  induction 1 as [|x l1 l2 Hp IH|x y l|l1 l2 l3 Hp1 IH1 Hp2 IH2];
    intros Hnd; simpl.
  - done.
  - rewrite fmap_cons in Hnd. apply NoDup_cons in Hnd as [_ Hnd].
    by rewrite IH.
  - rewrite !fmap_cons in Hnd. apply NoDup_cons in Hnd as [Hy _].
    apply insert_frame_comm. intros Heq. apply Hy. rewrite Heq. left.
  - rewrite IH1 by done. apply IH2. by rewrite <-Hp1.
Qed.

(** X8. The series does not depend on the order in which entries with
    pairwise different frame indices are stored. *)
Theorem series_ignores_storage_order (profile : gmap Z Z)
    (entries entries' : list Entry.t) :
  entries ≡ₚ entries' → NoDup (Entry.frame <$> entries) →
  compute_degradation_series profile entries
  = compute_degradation_series profile entries'.
Proof.
  intros Hp Hnd. rewrite !compute_degradation_series_spec.
  unfold stints_of, history_of. by rewrite (sorted_by_frame_perm _ _ Hp Hnd).
Qed.

Lemma series_ignores_storage_order_witness :
  compute_degradation_series (expected_tyre_life init_window)
    [Entry.mk 2 0 2 6; Entry.mk 1 0 1 5]%Z
  = compute_degradation_series (expected_tyre_life init_window)
      [Entry.mk 1 0 1 5; Entry.mk 2 0 2 6]%Z.
Proof.
  apply series_ignores_storage_order.
  - apply Permutation_swap.
  - apply NoDup_cons. split.
    + intros Hin. apply list_elem_of_singleton in Hin. discriminate Hin.
    + apply NoDup_singleton.
Defined.

Lemma history_of_stored_order entries :
  frame_ordered entries → history_of entries = triple_of <$> entries.
Proof.
  intros H. unfold history_of. rewrite sorted_id; [done|].
  eapply Sorted_weaken; [|exact H].
  intros a b. unfold Py.key_le. apply Z.leb_le.
Qed.

(** X9. When the stored entries are already in non-decreasing frame
    order, sorting changes nothing: the stints are cut from the entries in
    their stored order and the x values are the entries' laps as stored. *)
Theorem series_follows_stored_order (profile : gmap Z Z)
    (entries : list Entry.t) :
  frame_ordered entries →
  stints_of entries = build_stints (triple_of <$> entries)
  ∧ compute_degradation_series profile entries
    = foldl (plot_stint profile) ([], [])
            (build_stints (triple_of <$> entries))
  ∧ (compute_degradation_series profile entries).1 = Entry.lap <$> entries.
Proof.
  intros H. pose proof (history_of_stored_order entries H) as Hh.
  split_and!.
  - unfold stints_of. by rewrite Hh.
  - rewrite compute_degradation_series_spec, plot_stints_spec.
    unfold stints_of. by rewrite Hh.
  - rewrite compute_degradation_series_spec. simpl. rewrite series_laps.
    f_equal. apply sorted_id. eapply Sorted_weaken; [|exact H].
    intros a b. unfold Py.key_le. apply Z.leb_le.
Qed.

Lemma series_follows_stored_order_witness :
  (compute_degradation_series (expected_tyre_life init_window)
     [Entry.mk 1 0 1 5; Entry.mk 1 0 2 6; Entry.mk 4 0 3 7]%Z).1
  = [5; 6; 7]%Z.
Proof.
  apply (series_follows_stored_order (expected_tyre_life init_window)
           [Entry.mk 1 0 1 5; Entry.mk 1 0 2 6; Entry.mk 4 0 3 7]%Z).
  repeat constructor; simpl; lia.
Defined.

(* ===================================================================== *)
(** * Further properties of the store                                     *)
(* ===================================================================== *)

Lemma foldl_record_other frame_index drivers
    (dd : gmap string (list Entry.t)) code :
  code ∉ drivers.*1 →
  foldl (record frame_index) dd drivers !! code = dd !! code.
Proof.
  revert dd. induction drivers as [|[c p] drivers IH]; intros dd Hout; [done|].
  simpl in *. apply not_elem_of_cons in Hout as [Hne Hout].
  rewrite IH by done. rewrite record_spec. by rewrite lookup_insert_ne.
Qed.

Lemma foldl_record_in frame_index drivers
    (dd : gmap string (list Entry.t)) code pos :
  NoDup drivers.*1 → (code, pos) ∈ drivers →
  foldl (record frame_index) dd drivers !! code
  = Some (Py.last_n 1000
            (default [] (dd !! code) ++ [entry_of frame_index pos])).
Proof.
  revert dd. induction drivers as [|[c p] drivers IH]; intros dd Hnd Hin.
  { by apply elem_of_nil in Hin. }
  simpl in *. apply NoDup_cons in Hnd as [Hc Hnd].
  apply elem_of_cons in Hin as [[= -> ->]|Hin].
  - rewrite foldl_record_other by done.
    by rewrite record_spec, lookup_insert_eq.
  - assert (code ≠ c) as Hne.
    { intros ->. apply Hc. apply list_elem_of_fmap. by exists (c, pos). }
    rewrite IH by done. rewrite record_spec. by rewrite lookup_insert_ne.
Qed.

(** X10. A frame adds, for each driver it lists, one entry at the end of
    that driver's history (built from the frame index and the driver's
    fields, 0 standing in for a missing one), cut to the last 1000; the
    histories of all other drivers are left as they were. *)
Theorem telemetry_records_each_driver (w : window) (data : Data.t) drivers :
  Data.frame data ≫= Data.drivers = Some drivers →
  NoDup drivers.*1 →
  let frame_index := default 0%Z (Data.frame_index data) in
  let w' := on_telemetry_data data w in
  (∀ code pos,
     (code, pos) ∈ drivers →
     driver_data w' !! code
     = Some (Py.last_n 1000
               (default [] (driver_data w !! code)
                ++ [{| Entry.frame := frame_index;
                       Entry.tyre := default 0%Z (Pos.tyre pos);
                       Entry.tyre_life := default 0%Z (Pos.tyre_life pos);
                       Entry.lap := default 0%Z (Pos.lap pos) |}])))
  ∧ (∀ code, code ∉ drivers.*1 →
             driver_data w' !! code = driver_data w !! code).
Proof.
  intros Hd Hnd frame_index w'. unfold w', on_telemetry_data. rewrite Hd.
  simpl. rewrite driver_data_sync_combo. split.
  - intros code pos Hin. by apply foldl_record_in.
  - intros code Hout. by apply foldl_record_other.
Qed.

Lemma telemetry_records_each_driver_witness :
  let data :=
    Data.mk (Some (Data.mk_frame
                     (Some [("VER", Pos.mk (Some 1%Z) None (Some 3%Z));
                            ("HAM", Pos.mk None None None)])))
            None in
  driver_data (on_telemetry_data data init_window) !! "HAM"
  = Some (Py.last_n 1000
            (default [] (driver_data init_window !! "HAM")
             ++ [Entry.mk 0 0 0 0])).
Proof.
  intros data.
  assert (NoDup ["VER"; "HAM"]) as Hnd.
  { apply NoDup_cons. split.
    - intros Hin. apply list_elem_of_singleton in Hin. discriminate Hin.
    - apply NoDup_singleton. }
  destruct (telemetry_records_each_driver init_window data
              [("VER", Pos.mk (Some 1%Z) None (Some 3%Z));
               ("HAM", Pos.mk None None None)] eq_refl Hnd) as [H _].
  apply (H "HAM" (Pos.mk None None None)). right. left.
Defined.

Lemma record_keeps frame_index (dd : gmap string (list Entry.t)) item code h :
  dd !! code = Some h → length h ≤ 1000 →
  ∃ h', record frame_index dd item !! code = Some h'
        ∧ length h ≤ length h' ≤ 1000.
Proof.
  intros Hh Hlen. destruct item as [c pos]. rewrite record_spec.
  destruct (decide (code = c)) as [->|Hne].
  - rewrite lookup_insert_eq, Hh. simpl. eexists. split; [done|].
    rewrite last_n_length, length_app. simpl. lia.
  - rewrite lookup_insert_ne by done. exists h. split; [done|lia].
Qed.

Lemma foldl_record_keeps frame_index drivers
    (dd : gmap string (list Entry.t)) code h :
  dd !! code = Some h → length h ≤ 1000 →
  ∃ h', foldl (record frame_index) dd drivers !! code = Some h'
        ∧ length h ≤ length h' ≤ 1000.
Proof.
  revert dd h. induction drivers as [|item drivers IH]; intros dd h Hh Hlen.
  { exists h. split; [done|lia]. }
  simpl. destruct (record_keeps frame_index dd item code h Hh Hlen)
    as (h1 & Hh1 & Hlen1).
  destruct (IH _ _ Hh1 ltac:(lia)) as (h2 & Hh2 & Hlen2).
  exists h2. split; [done|lia].
Qed.

(** X11. Telemetry never removes a driver from the store and never makes
    a history (of at most 1000 entries) shorter. *)
Theorem telemetry_never_forgets (w : window) (data : Data.t) code h :
  driver_data w !! code = Some h → length h ≤ 1000 →
  ∃ h', driver_data (on_telemetry_data data w) !! code = Some h'
        ∧ length h ≤ length h' ≤ 1000.
Proof.
  intros Hh Hlen. unfold on_telemetry_data.
  destruct (Data.frame data ≫= Data.drivers) as [drivers|].
  - simpl. apply foldl_record_keeps; [|done].
    by rewrite driver_data_sync_combo.
  - exists h. split; [done|lia].
Qed.

Lemma telemetry_never_forgets_witness :
  let w := feed "VER" [Entry.mk 1 0 1 1; Entry.mk 2 0 2 2]%Z init_window in
  ∃ h', driver_data
          (on_telemetry_data (frame_for "HAM" (Entry.mk 3 0 1 2)) w) !! "VER"
        = Some h'
        ∧ 2 ≤ length h' ≤ 1000.
Proof.
  intros w.
  apply (telemetry_never_forgets w (frame_for "HAM" (Entry.mk 3 0 1 2))
           "VER" [Entry.mk 1 0 1 1; Entry.mk 2 0 2 2]%Z).
  - vm_compute. reflexivity.
  - simpl. lia.
Defined.

Lemma Sorted_drop {A} (R : A → A → Prop) n l :
  Sorted R l → Sorted R (drop n l).
Proof.
  revert l. induction n as [|n IH]; intros l Hl; [done|].
  destruct l as [|x l]; [done|]. simpl. apply IH.
  by apply Sorted_inv in Hl as [? _].
Qed.

Lemma frame_ordered_snoc fi h e :
  frame_ordered h → Forall (λ a, (Entry.frame a ≤ fi)%Z) h →
  (fi ≤ Entry.frame e)%Z → frame_ordered (h ++ [e]).
Proof.
  intros Hs Hb He. apply Sorted_snoc; [done|].
  destruct h as [|b h _] using rev_ind; [constructor|].
  constructor. apply Forall_app in Hb as [_ Hb].
  rewrite Forall_singleton in Hb. lia.
Qed.

Lemma record_frame_ordered fi (dd : gmap string (list Entry.t)) item :
  store_frame_ordered fi dd → store_frame_ordered fi (record fi dd item).
Proof.
  destruct item as [c pos]. rewrite record_spec.
  intros Hok code h. destruct (decide (code = c)) as [->|Hne].
  - rewrite lookup_insert_eq. intros [= <-].
    assert (frame_ordered (default [] (dd !! c))
            ∧ Forall (λ e, (Entry.frame e ≤ fi)%Z) (default [] (dd !! c)))
      as [Hs Hb].
    { destruct (dd !! c) as [h0|] eqn:Hh0; simpl; [by eapply Hok|].
      split; constructor. }
    unfold Py.last_n. split.
    + apply Sorted_drop.
      eapply (frame_ordered_snoc fi); [done|done|]. simpl. lia.
    + apply Forall_drop, Forall_app. split; [done|].
      apply Forall_singleton. simpl. lia.
  - rewrite lookup_insert_ne by done. apply Hok.
Qed.

Lemma feed_other code code' samples w :
  code' ≠ code →
  driver_data (feed code samples w) !! code' = driver_data w !! code'.
Proof.
  intros Hne. induction samples as [|e samples IH] using rev_ind; [done|].
  rewrite feed_snoc, on_telemetry_data_frame_for.
  by rewrite lookup_insert_ne.
Qed.

(** X12. Frames that arrive with non-decreasing frame indices keep every
    history in frame order: if all histories are in non-decreasing frame
    order with no frame beyond [fi], and a message with frame index at
    least [fi] arrives, they are so again, with that index as the new
    bound. *)
Theorem telemetry_keeps_frame_order (w : window) (data : Data.t) fi :
  store_frame_ordered fi (driver_data w) →
  (fi ≤ default 0 (Data.frame_index data))%Z →
  store_frame_ordered (default 0%Z (Data.frame_index data))
                      (driver_data (on_telemetry_data data w)).
Proof.
  intros Hok Hle. set (fi' := default 0%Z (Data.frame_index data)) in *.
  assert (store_frame_ordered fi' (driver_data w)) as Hok'.
  { intros code h Hh. destruct (Hok code h Hh) as [Hs Hb]. split; [done|].
    eapply Forall_impl; [exact Hb|]. simpl. intros e He. lia. }
  unfold on_telemetry_data.
  destruct (Data.frame data ≫= Data.drivers) as [drivers|]; [|done].
  simpl. fold fi'. rewrite driver_data_sync_combo.
  generalize (driver_data w) Hok'. clear.
  induction drivers as [|item drivers IH]; intros dd Hdd; [done|].
  simpl. by apply IH, record_frame_ordered.
Qed.

Lemma telemetry_keeps_frame_order_witness :
  let w := feed "VER" [Entry.mk 1 0 1 1; Entry.mk 3 0 2 2]%Z
             (feed "HAM" [Entry.mk 2 1 1 1]%Z init_window) in
  store_frame_ordered 5
    (driver_data (on_telemetry_data (frame_for "HAM" (Entry.mk 5 1 2 3)) w)).
Proof.
  intros w.
  apply (telemetry_keeps_frame_order w
           (frame_for "HAM" (Entry.mk 5 1 2 3)) 3).
  - intros code h Hh.
    destruct (decide (code = "VER")) as [->|Hv].
    { vm_compute in Hh. injection Hh as <-.
      split; repeat constructor; simpl; lia. }
    destruct (decide (code = "HAM")) as [->|Hh'].
    { vm_compute in Hh. injection Hh as <-.
      split; repeat constructor; simpl; lia. }
    exfalso. unfold w in Hh. rewrite !feed_other in Hh by done.
    simpl in Hh. by rewrite lookup_empty in Hh.
  - simpl. lia.
Defined.

(* ===================================================================== *)
(** * Further properties of selection, reset and redraw                   *)
(* ===================================================================== *)

(** X13. After a frame that lists drivers the combo holds "All Drivers"
    followed by the frame's driver codes in the frame's order.  The
    selection is either kept or reset to "All Drivers"; it is kept
    whenever it is among the new items, and also whenever the combo
    already held exactly these items. *)
Theorem combo_tracks_frame (w : window) (data : Data.t) drivers :
  Data.frame data ≫= Data.drivers = Some drivers →
  let desired := all_drivers :: drivers.*1 in
  let w' := on_telemetry_data data w in
  driver_combo w' = desired
  ∧ (current_driver w' = current_driver w ∨ current_driver w' = all_drivers)
  ∧ (current_driver w ∈ desired → current_driver w' = current_driver w)
  ∧ (driver_combo w = desired → current_driver w' = current_driver w).
Proof.
  intros Hd desired w'. unfold w', on_telemetry_data. rewrite Hd. simpl.
  fold desired. unfold sync_combo.
  destruct (decide (driver_combo w = desired)) as [Heq|Hne]; simpl.
  - by split_and!; [|left|..].
  - destruct (decide (current_driver w ∈ desired)) as [Hin|Hout]; simpl.
    + by split_and!; [|left|..].
    + by split_and!; [|right|..].
Qed.

Lemma combo_tracks_frame_witness :
  driver_combo
    (on_telemetry_data (frame_for "VER" (Entry.mk 1 0 1 1)) init_window)
  = [all_drivers; "VER"].
Proof.
  apply (combo_tracks_frame init_window (frame_for "VER" (Entry.mk 1 0 1 1))
           [("VER", Pos.mk (Some 0) (Some 1) (Some 1))]%Z eq_refl).
Defined.

Lemma combo_head_sync desired w :
  head desired = Some all_drivers →
  head (driver_combo w) = Some all_drivers →
  head (driver_combo (sync_combo desired w)) = Some all_drivers.
Proof. intros Hd Hw. unfold sync_combo. by repeat case_decide. Qed.

(** X14. In a window driven through the combo box the selection is
    always one of the combo's items and is never the empty text, and the
    combo always begins with "All Drivers". *)
Theorem gui_selection_is_an_item (w : window) :
  gui_reachable w →
  current_driver w ∈ driver_combo w
  ∧ current_driver w ≠ ""
  ∧ head (driver_combo w) = Some all_drivers.
Proof.
  induction 1 as [|w data Hw (IH1 & IH2 & IH3)|w driver Hw (IH1 & IH2 & IH3) Hin
                  |w Hw IH|w Hw IH].
  - split_and!; [left|done|done].
  - unfold on_telemetry_data.
    destruct (Data.frame data ≫= Data.drivers) as [drivers|]; [|done].
    simpl. split_and!.
    + apply sync_combo_selection; [left|done].
    + unfold sync_combo. repeat case_decide; done.
    + by apply combo_head_sync.
  - unfold on_driver_changed. destruct (String.eqb_spec driver ""); done.
  - done.
  - done.
Qed.

Lemma gui_selection_is_an_item_witness :
  current_driver
    (on_driver_changed "VER"
       (on_telemetry_data (frame_for "VER" (Entry.mk 1 0 1 1)) init_window))
  ∈ driver_combo
      (on_driver_changed "VER"
         (on_telemetry_data (frame_for "VER" (Entry.mk 1 0 1 1)) init_window)).
Proof.
  apply gui_selection_is_an_item.
  apply gui_select; [apply gui_telemetry, gui_init|].
  vm_compute. right. left.
Defined.

(** X15. A reset empties the store and draws the placeholder at once,
    while the selection and the combo stay as they are; samples fed after
    it build the history from nothing. *)
Theorem refresh_restarts_history (w : window) code samples :
  driver_data (refresh_data w) = ∅
  ∧ figure (refresh_data w) = placeholder_axes
  ∧ current_driver (refresh_data w) = current_driver w
  ∧ driver_combo (refresh_data w) = driver_combo w
  ∧ (samples ≠ [] →
     driver_data (feed code samples (refresh_data w)) !! code
     = Some (Py.last_n 1000 samples)).
Proof.
  split_and!; try done.
  intros Hne. rewrite feed_history by done. simpl. by rewrite lookup_empty.
Qed.

Lemma refresh_restarts_history_witness :
  let w := feed "VER" [Entry.mk 1 0 1 1; Entry.mk 2 0 2 2]%Z init_window in
  driver_data (feed "VER" [Entry.mk 3 1 1 3]%Z (refresh_data w)) !! "VER"
  = Some (Py.last_n 1000 [Entry.mk 3 1 1 3]%Z).
Proof.
  intros w.
  by apply (refresh_restarts_history w "VER" [Entry.mk 3 1 1 3]%Z).
Defined.

Lemma handle_profile w ev :
  expected_tyre_life (handle w ev) = expected_tyre_life w.
Proof.
  destruct ev as [data|driver| |]; simpl; try done.
  - unfold on_telemetry_data.
    destruct (Data.frame data ≫= Data.drivers); [|done]. simpl.
    unfold sync_combo. by repeat case_decide.
  - unfold on_driver_changed. by destruct (String.eqb driver "").
Qed.

Lemma handle_selection_nonempty w ev :
  current_driver w ≠ "" → current_driver (handle w ev) ≠ "".
Proof.
  intros Hw. destruct ev as [data|driver| |]; simpl; try done.
  - unfold on_telemetry_data.
    destruct (Data.frame data ≫= Data.drivers); [|done]. simpl.
    unfold sync_combo. by repeat case_decide.
  - unfold on_driver_changed. by destruct (String.eqb_spec driver "").
Qed.

(** X16. Whatever events a window has handled, the expected-life profile
    is the one it was built with, the selection is not the empty text, and
    no stored history is empty. *)
Theorem run_invariants (evs : list event) :
  expected_tyre_life (run evs) = expected_tyre_life init_window
  ∧ current_driver (run evs) ≠ ""
  ∧ (∀ code h, driver_data (run evs) !! code = Some h → h ≠ []).
Proof.
  split_and!.
  - unfold run. induction evs as [|ev evs IH] using rev_ind; [done|].
    rewrite foldl_app. simpl. by rewrite handle_profile.
  - unfold run. induction evs as [|ev evs IH] using rev_ind; [done|].
    rewrite foldl_app. by apply handle_selection_nonempty.
  - intros code h Hh. by destruct (run_store_ok evs code h Hh).
Qed.

Lemma run_invariants_witness :
  [Entry.mk 1 0 1 1] ≠ [].
Proof.
  destruct (run_invariants [Telemetry (frame_for "VER" (Entry.mk 1 0 1 1))])
    as (_ & _ & H).
  apply (H "VER"). vm_compute. reflexivity.
Defined.

(* ===================================================================== *)
(** * Further properties of the plot                                      *)
(* ===================================================================== *)

Lemma series_length_x profile entries :
  length (compute_degradation_series profile entries).1 = length entries.
Proof.
  rewrite compute_degradation_series_spec. simpl.
  rewrite series_laps, length_fmap. apply sorted_length.
Qed.

Lemma series_length_y profile entries :
  length (compute_degradation_series profile entries).2 = length entries.
Proof.
  rewrite compute_degradation_series_spec. simpl.
  rewrite series_lengths, series_laps, length_fmap. apply sorted_length.
Qed.

Lemma truthy_length {A B} (l : list A) (k : list B) :
  length l = length k → Py.truthy l = Py.truthy k.
Proof. by destruct l, k. Qed.

(** A line is drawn exactly for a non-empty history. *)
Lemma series_truthy profile entries :
  Py.truthy (compute_degradation_series profile entries).1
  && Py.truthy (compute_degradation_series profile entries).2
  = Py.truthy entries.
Proof.
  rewrite (truthy_length _ entries) by apply series_length_x.
  rewrite (truthy_length (_.2) entries) by apply series_length_y.
  by destruct entries.
Qed.

Lemma driver_line_spec profile dd idx driver :
  driver_line profile dd idx driver
  = if Py.truthy (default [] (dd !! driver)) then
      Some (mk_line
              (compute_degradation_series profile
                 (default [] (dd !! driver))).1
              (compute_degradation_series profile
                 (default [] (dd !! driver))).2
              (Q2Qc (3 # 2)) (Tab10 (idx mod 10)) driver
              (Some (Q2Qc (9 # 10))))
    else None.
Proof.
  unfold driver_line.
  rewrite <-(series_truthy profile (default [] (dd !! driver))).
  by destruct (compute_degradation_series _ _).
Qed.

Lemma plot_driver_spec profile dd acc idx driver :
  plot_driver profile dd acc (idx, driver)
  = match driver_line profile dd idx driver with
    | Some l => (acc.1 ++ [l], true)
    | None => acc
    end.
Proof.
  unfold plot_driver, driver_line.
  destruct (compute_degradation_series _ _) as [px py].
  by destruct (Py.truthy px && Py.truthy py).
Qed.

Lemma foldl_plot_driver profile dd acc items :
  foldl (plot_driver profile dd) acc items
  = (acc.1 ++ omap (λ '(idx, d), driver_line profile dd idx d) items,
     acc.2
     || Py.truthy (omap (λ '(idx, d), driver_line profile dd idx d) items)).
Proof.
  revert acc. induction items as [|[idx d] items IH]; intros [drawn b].
  - simpl. by rewrite app_nil_r, orb_false_r.
  - cbn [foldl]. rewrite IH, plot_driver_spec. cbn [omap list_omap].
    destruct (driver_line profile dd idx d) as [l|]; simpl.
    + by rewrite <-app_assoc, orb_true_r.
    + done.
Qed.

(** The lines and the text of the all-drivers view. *)
Lemma all_drivers_axes_lines profile dd :
  lines (all_drivers_axes profile dd)
  = omap (λ '(idx, d), driver_line profile dd idx d)
         (Py.enumerate (drivers_sorted dd))
  ∧ texts (all_drivers_axes profile dd)
    = if Py.truthy (lines (all_drivers_axes profile dd)) then []
      else [mk_text half half "No tyre data to plot yet" None].
Proof.
  unfold all_drivers_axes. fold (drivers_sorted dd).
  rewrite foldl_plot_driver. simpl. done.
Qed.

Lemma enumerate_labels profile dd k (l : list string) :
  label <$> omap (λ '(idx, d), driver_line profile dd idx d)
                 (zip (seq k (length l)) l)
  = filter (λ d, default [] (dd !! d) ≠ []) l.
Proof.
  revert k. induction l as [|d l IH]; intros k; [done|].
  cbn [length seq zip_with omap list_omap].
  rewrite filter_cons, driver_line_spec.
  destruct (default [] (dd !! d)) as [|e h] eqn:Hd; simpl.
  - apply IH.
  - f_equal. apply IH.
Qed.

Lemma elem_of_enumerate {A} k (l : list A) idx x :
  (idx, x) ∈ zip (seq k (length l)) l → k ≤ idx ∧ l !! (idx - k) = Some x.
Proof.
  revert k. induction l as [|y l IH]; intros k; simpl.
  - by intros ?%elem_of_nil.
  - intros [[= -> ->]|Hin]%elem_of_cons.
    + split; [lia|]. by rewrite Nat.sub_diag.
    + destruct (IH _ Hin) as [Hle Hl]. split; [lia|].
      by replace (idx - k) with (S (idx - S k)) by lia.
Qed.

Lemma string_leb_total a b : String.leb a b = true ∨ String.leb b a = true.
Proof. apply String.leb_total. Qed.

(** X17. The all-drivers view visits the stored driver codes in
    ascending order and draws one line, labelled with the code, for each
    driver whose history is not empty; a line's colour is number
    (position of its driver among the sorted codes) mod 10 of the
    palette. *)
Theorem all_drivers_view_lines (profile : gmap Z Z)
    (dd : gmap string (list Entry.t)) :
  let keys := drivers_sorted dd in
  let ax := all_drivers_axes profile dd in
  keys ≡ₚ (map_to_list dd).*1
  ∧ Sorted (λ a b, String.leb a b = true) keys
  ∧ label <$> lines ax = filter (λ d, default [] (dd !! d) ≠ []) keys
  ∧ (∀ l, l ∈ lines ax →
          ∃ idx, keys !! idx = Some (label l)
                 ∧ line_color l = Tab10 (idx mod 10)).
Proof.
  intros keys ax. split_and!.
  - apply sorted_perm.
  - apply (sorted_sorted id String.leb string_leb_total).
  - unfold ax. rewrite (proj1 (all_drivers_axes_lines profile dd)).
    apply enumerate_labels.
  - intros l. unfold ax. rewrite (proj1 (all_drivers_axes_lines profile dd)).
    intros ([idx d] & Hin & Hl)%list_elem_of_omap.
    apply elem_of_enumerate in Hin as [_ Hin]. rewrite Nat.sub_0_r in Hin.
    rewrite driver_line_spec in Hl.
    destruct (Py.truthy _); [|done]. injection Hl as <-. simpl.
    by exists idx.
Qed.

Lemma all_drivers_view_lines_witness :
  let dd := driver_data
              (run [Telemetry (frame_for "VER" (Entry.mk 1 0 1 1));
                    Telemetry (frame_for "HAM" (Entry.mk 2 1 1 1))]) in
  match lines (all_drivers_axes (expected_tyre_life init_window) dd) with
  | l :: _ =>
      ∃ idx, drivers_sorted dd !! idx = Some (label l)
             ∧ line_color l = Tab10 (idx mod 10)
  | [] => False
  end.
Proof.
  intros dd.
  destruct (lines (all_drivers_axes (expected_tyre_life init_window) dd))
    as [|l ls] eqn:E.
  - vm_compute in E. discriminate E.
  - destruct (all_drivers_view_lines (expected_tyre_life init_window) dd)
      as (_ & _ & _ & H).
    apply H. rewrite E. left.
Defined.

(** X18. A driver's curve is the same in both views: a line of the
    all-drivers view has the x and y values of the single line drawn when
    that driver is selected, and both views share the x limits. *)
Theorem same_curve_in_both_views (profile : gmap Z Z)
    (dd : gmap string (list Entry.t)) l :
  l ∈ lines (all_drivers_axes profile dd) →
  lines (single_driver_axes profile dd (label l))
  = [mk_line (xdata l) (ydata l) (Qc_of_Z 2) TabBlue (label l) None]
  ∧ xlim (single_driver_axes profile dd (label l))
    = xlim (all_drivers_axes profile dd).
Proof.
  rewrite (proj1 (all_drivers_axes_lines profile dd)).
  intros ([idx d] & _ & Hl)%list_elem_of_omap.
  rewrite driver_line_spec in Hl.
  destruct (Py.truthy (default [] (dd !! d))) eqn:Ht; [|done].
  injection Hl as <-. simpl. split.
  - unfold single_driver_axes.
    pose proof (series_truthy profile (default [] (dd !! d))) as Hs.
    destruct (compute_degradation_series _ _) as [px py]. simpl in *.
    by rewrite Hs, Ht.
  - unfold single_driver_axes, all_drivers_axes.
    destruct (compute_degradation_series _ _).
    by destruct (foldl _ _ _).
Qed.

Lemma same_curve_in_both_views_witness :
  let dd := driver_data
              (run [Telemetry (frame_for "VER" (Entry.mk 1 0 1 1))]) in
  let p := expected_tyre_life init_window in
  match lines (all_drivers_axes p dd) with
  | l :: _ =>
      lines (single_driver_axes p dd (label l))
      = [mk_line (xdata l) (ydata l) (Qc_of_Z 2) TabBlue (label l) None]
  | [] => False
  end.
Proof.
  intros dd p.
  destruct (lines (all_drivers_axes p dd)) as [|l ls] eqn:E.
  - vm_compute in E. discriminate E.
  - apply (same_curve_in_both_views p dd l). rewrite E. left.
Defined.

Lemma filter_Forall_id {A} (P : A → Prop) `{!∀ x, Decision (P x)} l :
  Forall P l → filter P l = l.
Proof.
  induction 1 as [|x l Hx _ IH]; [done|].
  rewrite filter_cons, decide_True by done. by rewrite IH.
Qed.

Lemma drivers_sorted_elem dd d :
  d ∈ drivers_sorted dd ↔ is_Some (dd !! d).
Proof.
  unfold drivers_sorted. rewrite sorted_perm, list_elem_of_fmap. split.
  - intros ([c h] & -> & Hin). apply elem_of_map_to_list in Hin. by exists h.
  - intros [h Hh]. exists (d, h). split; [done|].
    by apply elem_of_map_to_list.
Qed.

Lemma drivers_sorted_length (dd : gmap string (list Entry.t)) :
  length (drivers_sorted dd) = size dd.
Proof.
  unfold drivers_sorted.
  by rewrite sorted_length, length_fmap, length_map_to_list.
Qed.

(** X19. In every window reached by events, a non-empty store is drawn
    in full: the all-drivers view has one line per stored driver, in
    ascending order of the codes, and never the "No tyre data to plot yet"
    text; the view of a stored driver has exactly one line. *)
Theorem reachable_view_is_complete (evs : list event) :
  let dd := driver_data (run evs) in
  let p := expected_tyre_life (run evs) in
  dd ≠ ∅ →
  label <$> lines (all_drivers_axes p dd) = drivers_sorted dd
  ∧ length (lines (all_drivers_axes p dd)) = size dd
  ∧ texts (all_drivers_axes p dd) = []
  ∧ (∀ d, is_Some (dd !! d) →
          length (lines (single_driver_axes p dd d)) = 1).
Proof.
  intros dd p Hne.
  assert (label <$> lines (all_drivers_axes p dd) = drivers_sorted dd)
    as Hlabels.
  { rewrite (proj1 (all_drivers_axes_lines p dd)).
    unfold Py.enumerate. rewrite enumerate_labels.
    apply filter_Forall_id, Forall_forall. intros d Hd.
    apply drivers_sorted_elem in Hd as [h Hh]. rewrite Hh. simpl.
    by destruct (run_store_ok evs d h Hh). }
  assert (length (lines (all_drivers_axes p dd)) = size dd) as Hlen.
  { rewrite <-(length_fmap label), Hlabels. apply drivers_sorted_length. }
  split_and!; [done|done| |].
  - rewrite (proj2 (all_drivers_axes_lines p dd)).
    destruct (lines (all_drivers_axes p dd)); [|done].
    simpl in Hlen. symmetry in Hlen. by apply map_size_empty_iff in Hlen.
  - intros d [h Hh]. unfold single_driver_axes. rewrite Hh. simpl.
    pose proof (series_truthy p h) as Ht.
    destruct (compute_degradation_series p h) as [px py]. simpl in *.
    rewrite Ht. destruct (run_store_ok evs d h Hh) as [Hnil _].
    by destruct h.
Qed.

Lemma reachable_view_is_complete_witness :
  let w := run [Telemetry (frame_for "VER" (Entry.mk 1 0 1 1));
                Telemetry (frame_for "HAM" (Entry.mk 2 1 1 1))] in
  length (lines (all_drivers_axes (expected_tyre_life w) (driver_data w)))
  = size (driver_data w).
Proof.
  intros w.
  apply (reachable_view_is_complete
           [Telemetry (frame_for "VER" (Entry.mk 1 0 1 1));
            Telemetry (frame_for "HAM" (Entry.mk 2 1 1 1))]).
  intros H. apply (f_equal (λ m, m !! "VER")) in H.
  vm_compute in H. discriminate H.
Defined.

(** ** The x axis *)

Lemma foldl_max_spec x (l : list Z) :
  foldl Z.max x l ∈ x :: l ∧ Forall (λ y, (y ≤ foldl Z.max x l)%Z) (x :: l).
Proof.
  revert x. induction l as [|y l IH]; intros x; simpl.
  - split; [left|]. by repeat constructor.
  - destruct (IH (Z.max x y)) as [Hin Hall].
    apply Forall_cons in Hall as [Hm Hall]. split.
    + apply elem_of_cons in Hin as [Hin|Hin]; [|by right; right].
      rewrite Hin. destruct (Z.max_spec x y) as [[_ ->]|[_ ->]];
        [right; left|left].
    + repeat constructor; [lia|lia|done].
Qed.

Lemma py_max_spec (l : list Z) m :
  Py.max l = Some m → m ∈ l ∧ Forall (λ y, (y ≤ m)%Z) l.
Proof.
  destruct l as [|x l]; [done|]. simpl. intros [= <-]. apply foldl_max_spec.
Qed.

Lemma py_max_is_Some (l : list Z) : l ≠ [] → is_Some (Py.max l).
Proof. by destruct l. Qed.

(** The largest stored lap. *)
Lemma max_lap_upper (dd : gmap string (list Entry.t)) code h e :
  dd !! code = Some h → e ∈ h → (Entry.lap e ≤ max_lap dd)%Z.
Proof.
  intros Hh He. unfold max_lap.
  destruct (py_max_is_Some (Entry.lap <$> h)) as [m Hm].
  { intros Hnil. apply fmap_nil_inv in Hnil. subst. by apply elem_of_nil in He. }
  destruct (py_max_spec _ _ Hm) as [_ Hall].
  assert (m ∈ omap (λ '(_, entries), Py.max (Entry.lap <$> entries))
                   (map_to_list dd)) as Hin.
  { apply list_elem_of_omap. exists (code, h). split; [|done].
    by apply elem_of_map_to_list. }
  destruct (py_max_is_Some
              (omap (λ '(_, entries), Py.max (Entry.lap <$> entries))
                    (map_to_list dd))) as [M HM].
  { intros Hnil. rewrite Hnil in Hin. by apply elem_of_nil in Hin. }
  rewrite HM. simpl. destruct (py_max_spec _ _ HM) as [_ HallM].
  rewrite Forall_forall in Hall, HallM.
  specialize (Hall (Entry.lap e) ltac:(apply list_elem_of_fmap; eauto)).
  specialize (HallM m Hin). simpl in *. lia.
Qed.

Lemma max_lap_attained (dd : gmap string (list Entry.t)) code h :
  dd !! code = Some h → h ≠ [] →
  ∃ code' h' e, dd !! code' = Some h' ∧ e ∈ h' ∧ Entry.lap e = max_lap dd.
Proof.
  intros Hh Hne. unfold max_lap.
  destruct (py_max_is_Some (Entry.lap <$> h)) as [m Hm].
  { intros Hnil. by apply fmap_nil_inv in Hnil. }
  destruct (py_max_is_Some
              (omap (λ '(_, entries), Py.max (Entry.lap <$> entries))
                    (map_to_list dd))) as [M HM].
  { intros Hnil.
    assert (m ∈ omap (λ '(_, entries), Py.max (Entry.lap <$> entries))
                     (map_to_list dd)) as Hin.
    { apply list_elem_of_omap. exists (code, h). split; [|done].
      by apply elem_of_map_to_list. }
    rewrite Hnil in Hin. by apply elem_of_nil in Hin. }
  rewrite HM. simpl. destruct (py_max_spec _ _ HM) as [HinM _].
  apply list_elem_of_omap in HinM as ([c' h'] & Hc' & Hmax).
  apply elem_of_map_to_list in Hc'.
  destruct (py_max_spec _ _ Hmax) as [He _].
  apply list_elem_of_fmap in He as (e & -> & He).
  by exists c', h', e.
Qed.

Lemma series_x_elem profile entries x :
  x ∈ (compute_degradation_series profile entries).1 →
  ∃ e, e ∈ entries ∧ Entry.lap e = x.
Proof.
  rewrite compute_degradation_series_spec. simpl. rewrite series_laps.
  intros (e & -> & He)%list_elem_of_fmap. exists e. split; [|done].
  by rewrite sorted_perm in He.
Qed.

Lemma stored_x_bound profile (dd : gmap string (list Entry.t)) d x :
  x ∈ (compute_degradation_series profile (default [] (dd !! d))).1 →
  (x ≤ max_lap dd)%Z.
Proof.
  intros (e & He & <-)%series_x_elem.
  destruct (dd !! d) as [h|] eqn:Hh; simpl in He.
  - by eapply max_lap_upper.
  - by apply elem_of_nil in He.
Qed.

(** X20. For a non-empty store both views set the x limits to
    (0, max_lap + 1), where max_lap is the largest lap of any stored entry
    (an upper bound of all of them, and the lap of one of them when some
    history is not empty); hence no point of a drawn line lies to the
    right of the axis. *)
Theorem x_axis_covers_points (profile : gmap Z Z)
    (dd : gmap string (list Entry.t)) (selection : string) :
  dd ≠ ∅ →
  xlim (render profile dd selection) = Some (0, max_lap dd + 1)%Z
  ∧ (∀ code h e, dd !! code = Some h → e ∈ h →
                 (Entry.lap e ≤ max_lap dd)%Z)
  ∧ (∀ code h, dd !! code = Some h → h ≠ [] →
               ∃ code' h' e, dd !! code' = Some h' ∧ e ∈ h'
                             ∧ Entry.lap e = max_lap dd)
  ∧ (∀ l x, l ∈ lines (render profile dd selection) → x ∈ xdata l →
            (x < max_lap dd + 1)%Z).
Proof.
  intros Hne. unfold render. rewrite decide_False by done.
  split_and!.
  - destruct (negb _ && negb _).
    + unfold single_driver_axes. by destruct (compute_degradation_series _ _).
    + unfold all_drivers_axes. by destruct (foldl _ _ _).
  - apply max_lap_upper.
  - apply max_lap_attained.
  - intros l x Hl Hx. apply Z.lt_succ_r.
    destruct (negb _ && negb _).
    + unfold single_driver_axes in Hl.
      pose proof (stored_x_bound profile dd selection x) as Hb.
      destruct (compute_degradation_series _ _) as [px py]. simpl in *.
      destruct (Py.truthy px && Py.truthy py); [|by apply elem_of_nil in Hl].
      apply list_elem_of_singleton in Hl as ->. by apply Hb.
    + rewrite (proj1 (all_drivers_axes_lines profile dd)) in Hl.
      apply list_elem_of_omap in Hl as ([idx d] & _ & Hl).
      rewrite driver_line_spec in Hl.
      destruct (Py.truthy _); [|done]. injection Hl as <-. simpl in Hx.
      by eapply stored_x_bound.
Qed.

Lemma x_axis_covers_points_witness :
  let dd := driver_data
              (run [Telemetry (frame_for "VER" (Entry.mk 1 0 1 7))]) in
  xlim (render (expected_tyre_life init_window) dd "VER")
  = Some (0, max_lap dd + 1)%Z.
Proof.
  intros dd.
  apply (x_axis_covers_points (expected_tyre_life init_window) dd "VER").
  intros H. apply (f_equal (λ m, m !! "VER")) in H.
  vm_compute in H. discriminate H.
Defined.
